(** * PET BASIC 2.0/4.0 tokenizer: a shallow embedding of [tokenize-4.0.py]

    The development follows the program text of [src/tokenize-4.0.py]:
    the keyword table [TOKENS], its match order [SORTED_TOKENS], the line
    scanner [tokenize_line] and the PRG builder [create_prg].

    Data.  A Python [str] is a [list ascii]: the code points 0..255, which
    are exactly the ones [bytearray.append(ord(c))] accepts.  A text that
    holds another character can make [tokenize_line] raise [ValueError];
    such texts are modelled in the module [Unicode], and what is stated
    of a [list ascii] is stated of the texts that cannot raise it.  A
    byte is a [Z] in 0..255, an address or a line number is a [Z] (a
    Python [int]); [struct.pack('<H', x)] fails outside 0..65535, which
    is why the builder returns an [option].  The two
    [print(..., file=sys.stderr)] diagnostics of [create_prg] write
    nothing into the image and are left out. *)

From Stdlib Require Import ZArith Ascii String Lia.
From stdpp Require Import base tactics option list strings sorting.

Local Open Scope string_scope.
Local Open Scope list_scope.
Local Open Scope nat_scope.

(** ** Characters *)

(** [ord(c)] as a byte value. *)
Definition ord (c : ascii) : Z := Z.of_N (N_of_ascii c).

(** Code point of a character, as [str.upper] and the comparisons see it. *)
Definition cp (c : ascii) : N := N_of_ascii c.

Definition dquote : ascii := ascii_of_nat 34.
Definition space : ascii := ascii_of_nat 32.

Definition in_range (lo hi n : N) : bool := ((lo <=? n) && (n <=? hi))%N.

(** [c.upper()] for one character, as a sequence of code points.  Below
    256 Python maps a..z and the accented small letters 32 places down;
    three characters leave the range: the micro sign goes to U+039C, small
    y with diaeresis to U+0178, and sharp s becomes the two letters SS. *)
Definition upper_char (c : ascii) : list N :=
  let n := cp c in
  if in_range 0x61 0x7A n then [(n - 32)%N]
  else if (n =? 0xB5)%N then [0x39C%N]
  else if (n =? 0xDF)%N then [0x53%N; 0x53%N]
  else if (n =? 0xF7)%N then [n]
  else if in_range 0xE0 0xFE n then [(n - 32)%N]
  else if (n =? 0xFF)%N then [0x178%N]
  else [n].

(** [s.upper()]. *)
Definition upper (s : list ascii) : list N := flat_map upper_char s.

(** [c.isalpha()] on code points below 256. *)
Definition isalpha (c : ascii) : bool :=
  let n := cp c in
  in_range 0x41 0x5A n || in_range 0x61 0x7A n
  || (n =? 0xAA)%N || (n =? 0xB5)%N || (n =? 0xBA)%N
  || in_range 0xC0 0xD6 n || in_range 0xD8 0xF6 n || in_range 0xF8 0xFF n.

(** [c.isalnum()]: letters, the decimal digits, and the superscript digits
    and vulgar fractions that Python counts as numeric. *)
Definition isalnum (c : ascii) : bool :=
  let n := cp c in
  isalpha c || in_range 0x30 0x39 n
  || (n =? 0xB2)%N || (n =? 0xB3)%N || (n =? 0xB9)%N || in_range 0xBC 0xBE n.

(** [c in '$%']. *)
Definition in_dollar_percent (c : ascii) : bool :=
  (cp c =? 0x24)%N || (cp c =? 0x25)%N.

(** ** The keyword table *)

(** Code points of a spelling. *)
Definition spelling (name : string) : list N := map cp (list_ascii_of_string name).

(** [TOKENS], in the order the dictionary literal lists its items. *)
Definition TOKENS : list (string * Z) :=
  [ ("END", 0x80); ("FOR", 0x81); ("NEXT", 0x82); ("DATA", 0x83); ("INPUT#", 0x84);
    ("INPUT", 0x85); ("DIM", 0x86); ("READ", 0x87); ("LET", 0x88); ("GOTO", 0x89);
    ("RUN", 0x8A); ("IF", 0x8B); ("RESTORE", 0x8C); ("GOSUB", 0x8D); ("RETURN", 0x8E);
    ("REM", 0x8F); ("STOP", 0x90); ("ON", 0x91); ("WAIT", 0x92); ("LOAD", 0x93);
    ("SAVE", 0x94); ("VERIFY", 0x95); ("DEF", 0x96); ("POKE", 0x97); ("PRINT#", 0x98);
    ("PRINT", 0x99); ("CONT", 0x9A); ("LIST", 0x9B); ("CLR", 0x9C); ("CMD", 0x9D);
    ("SYS", 0x9E); ("OPEN", 0x9F); ("CLOSE", 0xA0); ("GET", 0xA1); ("NEW", 0xA2);
    ("TAB(", 0xA3); ("TO", 0xA4); ("FN", 0xA5); ("SPC(", 0xA6); ("THEN", 0xA7);
    ("NOT", 0xA8); ("STEP", 0xA9); ("+", 0xAA); ("-", 0xAB); ("*", 0xAC); ("/", 0xAD);
    ("^", 0xAE); ("AND", 0xAF); ("OR", 0xB0); (">", 0xB1); ("=", 0xB2); ("<", 0xB3);
    ("SGN", 0xB4); ("INT", 0xB5); ("ABS", 0xB6); ("USR", 0xB7); ("FRE", 0xB8);
    ("POS", 0xB9); ("SQR", 0xBA); ("RND", 0xBB); ("LOG", 0xBC); ("EXP", 0xBD);
    ("COS", 0xBE); ("SIN", 0xBF); ("TAN", 0xC0); ("ATN", 0xC1); ("PEEK", 0xC2);
    ("LEN", 0xC3); ("STR$", 0xC4); ("VAL", 0xC5); ("ASC", 0xC6); ("CHR$", 0xC7);
    ("LEFT$", 0xC8); ("RIGHT$", 0xC9); ("MID$", 0xCA);
    ("CONCAT", 0xCC); ("DOPEN", 0xCD); ("DCLOSE", 0xCE); ("RECORD", 0xCF);
    ("HEADER", 0xD0); ("COLLECT", 0xD1); ("BACKUP", 0xD2); ("COPY", 0xD3);
    ("APPEND", 0xD4); ("DSAVE", 0xD5); ("DLOAD", 0xD6); ("CATALOG", 0xD7);
    ("RENAME", 0xD8); ("SCRATCH", 0xD9); ("DIRECTORY", 0xDA) ]%Z.

(** The sort key [lambda x: (-len(x[0]), x[0])] and the order Python's
    tuple comparison puts on it: first the negated length, then the
    spelling, compared code point by code point. *)
Definition sort_key (x : string * Z) : Z * string :=
  (- Z.of_nat (String.length (fst x)), fst x)%Z.

Definition key_leb (a b : Z * string) : bool :=
  match (fst a ?= fst b)%Z with
  | Lt => true
  | Gt => false
  | Eq => String.leb (snd a) (snd b)
  end.

Definition item_le (x y : string * Z) : Prop :=
  key_leb (sort_key x) (sort_key y) = true.

#[global] Instance item_le_dec : RelDecision item_le.
Proof. intros x y. unfold item_le. apply _. Defined.

(** [sorted(items, key=...)]: a merge sort on the keys. *)
Definition sorted_by_key (items : list (string * Z)) : list (string * Z) :=
  merge_sort item_le items.

(** [SORTED_TOKENS = sorted(TOKENS.items(), key=lambda x: (-len(x[0]), x[0]))] *)
Definition SORTED_TOKENS : list (string * Z) :=
  Eval vm_compute in sorted_by_key TOKENS.

(** The match order in words: a longer spelling is tried before a
    shorter one, and of two spellings of one length the lexicographically
    smaller one is tried first. *)
Definition tried_before (x y : string * Z) : Prop :=
  String.length y.1 < String.length x.1 \/
  (String.length x.1 = String.length y.1 /\ String.compare x.1 y.1 = Lt).

#[global] Instance tried_before_dec : RelDecision tried_before.
Proof. intros x y. unfold tried_before. apply _. Defined.

(** ** tokenize_line *)

(** [line_text[i:i+len(token_name)].upper() == token_name] *)
Definition slice_matches (line_text : list ascii) (i : nat) (token_name : string) : bool :=
  bool_decide (upper (take (String.length token_name) (drop i line_text)) = spelling token_name).

(** [token_name[0].isalpha()]; every spelling of the table is non-empty. *)
Definition first_isalpha (token_name : string) : bool :=
  match token_name with
  | String c _ => isalpha c
  | EmptyString => false
  end.

(** The guard of the [continue]: the character after the matched span
    exists and is alphanumeric or one of [$], [%]. *)
Definition boundary_rejects (line_text : list ascii) (i : nat) (token_name : string) : bool :=
  first_isalpha token_name &&
  match line_text !! (i + String.length token_name) with
  | Some next_char => isalnum next_char || in_dollar_percent next_char
  | None => false
  end.

(** A candidate is taken when its spelling matches and the word-boundary
    guard does not skip it. *)
Definition accepts (line_text : list ascii) (p : nat) (token_name : string) : bool :=
  slice_matches line_text p token_name && negb (boundary_rejects line_text p token_name).

(** The [for token_name, token_value in SORTED_TOKENS] loop: the first
    candidate that matches and is not skipped by [continue] leaves the
    loop through [break]; [None] is [matched == False]. *)
Fixpoint match_tokens (line_text : list ascii) (i : nat)
    (candidates : list (string * Z)) : option (string * Z) :=
  match candidates with
  | [] => None
  | (token_name, token_value) :: rest =>
      if slice_matches line_text i token_name then
        if boundary_rejects line_text i token_name
        then match_tokens line_text i rest
        else Some (token_name, token_value)
      else match_tokens line_text i rest
  end.

(** [while i < len(line_text) and line_text[i] == ' ': i += 1] *)
Fixpoint count_spaces (l : list ascii) : nat :=
  match l with
  | c :: l' => if Ascii.eqb c space then S (count_spaces l') else 0
  | [] => 0
  end.

Definition skip_spaces (line_text : list ascii) (i : nat) : nat :=
  i + count_spaces (drop i line_text).

(** The local variables of [tokenize_line]. *)
Record scan_state : Type := ScanState {
  i : nat;
  in_quote : bool;
  in_rem : bool;
  result : list Z
}.

Definition init_state : scan_state :=
  {| i := 0; in_quote := false; in_rem := false; result := [] |}.

(** [result.append(ord(char)); i += 1] *)
Definition copy_char (char : ascii) (st : scan_state) : scan_state :=
  {| i := i st + 1; in_quote := in_quote st; in_rem := in_rem st;
     result := result st ++ [ord char] |}.

(** One iteration of the outer [while] body. *)
Definition step (line_text : list ascii) (st : scan_state) : scan_state :=
  match line_text !! i st with
  | None => st
  | Some char =>
      if Ascii.eqb char dquote then
        {| i := i st + 1; in_quote := negb (in_quote st); in_rem := in_rem st;
           result := result st ++ [ord char] |}
      else if in_quote st || in_rem st then copy_char char st
      else
        match match_tokens line_text (i st) SORTED_TOKENS with
        | Some (token_name, token_value) =>
            {| i := skip_spaces line_text (i st + String.length token_name);
               in_quote := in_quote st;
               in_rem := if String.eqb token_name "REM" then true else in_rem st;
               result := result st ++ [token_value] |}
        | None => copy_char char st
        end
  end.

(** The outer [while i < len(line_text)] loop, with a bound on the number
    of iterations; [None] means the bound was too small. *)
Fixpoint loop (fuel : nat) (line_text : list ascii) (st : scan_state) : option scan_state :=
  if bool_decide (i st < length line_text) then
    match fuel with
    | 0 => None
    | S fuel' => loop fuel' line_text (step line_text st)
    end
  else Some st.

(** [tokenize_line(line_text)]: every iteration advances [i], so
    [len(line_text)] iterations are enough (see [tokenize_line_total]). *)
Definition tokenize_line (line_text : list ascii) : option (list Z) :=
  result <$> loop (length line_text) line_text init_state.

(** A string literal as text. *)
Definition str (s : string) : list ascii := list_ascii_of_string s.

(** ** create_prg *)

(** [struct.pack('<H', x)]: two bytes, low byte first; [struct.error]
    when [x] is not in 0..65535. *)
Definition pack_H (x : Z) : option (list Z) :=
  if bool_decide (0 <= x <= 65535)%Z then Some [x mod 256; x / 256]%Z else None.

(** [struct.pack_into('<H', buffer, offset, x)]: overwrites two bytes in
    place; [struct.error] when they do not lie inside the buffer. *)
Definition pack_into_H (buffer : list Z) (offset : nat) (x : Z) : option (list Z) :=
  if bool_decide (0 <= x <= 65535)%Z then
    if bool_decide (offset + 2 <= length buffer)
    then Some (<[offset := (x mod 256)%Z]> (<[offset + 1 := (x / 256)%Z]> buffer))
    else None
  else None.

(** The body of [for line_num, line_text in basic_lines]. *)
Definition add_line (load_addr : Z) (prg : list Z) (line : Z * list ascii) : option (list Z) :=
  let line_num := fst line in
  let line_text := snd line in
  let line_start_offset := length prg in
  let prg := prg ++ [0; 0]%Z in
  packed ← pack_H line_num;
  let prg := prg ++ packed in
  tokenized ← tokenize_line line_text;
  let prg := prg ++ tokenized in
  let prg := prg ++ [0%Z] in
  let next_link_addr := (load_addr + Z.of_nat (length prg) - 2)%Z in
  pack_into_H prg line_start_offset next_link_addr.

Fixpoint add_lines (load_addr : Z) (prg : list Z) (basic_lines : list (Z * list ascii))
    : option (list Z) :=
  match basic_lines with
  | [] => Some prg
  | line :: rest => prg' ← add_line load_addr prg line; add_lines load_addr prg' rest
  end.

Definition create_prg (basic_lines : list (Z * list ascii)) (load_addr : Z) : option (list Z) :=
  prg ← pack_H load_addr;
  prg ← add_lines load_addr prg basic_lines;
  Some (prg ++ [0; 0]%Z).

(** The default [load_addr=0x0401]. *)
Definition default_load_addr : Z := 0x0401.

(** ** The command-line block

    What [__main__] does once [parse_basic_file] has returned [lines]:
    an empty list prints a message and leaves with [sys.exit(1)];
    otherwise the image is built and written to the output file.
    [Raised] is the [struct.error] of [create_prg]; the texts are
    [list ascii], so the [ValueError] of [tokenize_line] does not occur
    here. *)
Inductive outcome : Type :=
  | Exit (message : string) (status : Z)
  | Written (prg_data : list Z)
  | Raised.

Definition main_block (lines : list (Z * list ascii)) : outcome :=
  match lines with
  | [] => Exit "No BASIC lines found in input file" 1
  | _ :: _ =>
      match create_prg lines default_load_addr with
      | Some prg_data => Written prg_data
      | None => Raised
      end
  end.

(** ** parse_basic_file

    The file is given by its decoded text, with code points below 256 as
    everywhere here; opening and decoding it are not modelled. *)

Definition LF : ascii := ascii_of_nat 10.
Definition CR : ascii := ascii_of_nat 13.
Definition hash : ascii := ascii_of_nat 35.
Definition plus_sign : ascii := ascii_of_nat 43.
Definition minus_sign : ascii := ascii_of_nat 45.
Definition underscore : ascii := ascii_of_nat 95.

(** Text mode with universal newlines: [\r\n] and a lone [\r] are read
    as [\n]. *)
Fixpoint translate_newlines (s : list ascii) : list ascii :=
  match s with
  | [] => []
  | c :: s' =>
      if Ascii.eqb c CR then
        LF :: match s' with
              | d :: s'' => if Ascii.eqb d LF then translate_newlines s''
                            else translate_newlines s'
              | [] => []
              end
      else c :: translate_newlines s'
  end.

(** [for line in f]: the text cut behind every [\n], each line keeping
    its [\n]; [cur] is the line read so far. *)
Fixpoint read_lines (cur : list ascii) (s : list ascii) : list (list ascii) :=
  match s with
  | [] => match cur with [] => [] | _ :: _ => [cur] end
  | c :: s' =>
      if Ascii.eqb c LF then (cur ++ [c]) :: read_lines [] s'
      else read_lines (cur ++ [c]) s'
  end.

Definition file_lines (text : list ascii) : list (list ascii) :=
  read_lines [] (translate_newlines text).

(** [c.isspace()], the characters [str.strip()] removes. *)
Definition isspace (c : ascii) : bool :=
  let n := cp c in
  in_range 0x09 0x0D n || in_range 0x1C 0x20 n || (n =? 0x85)%N || (n =? 0xA0)%N.

Fixpoint lstrip (s : list ascii) : list ascii :=
  match s with
  | c :: s' => if isspace c then lstrip s' else s
  | [] => []
  end.

(** [s.strip()] *)
Definition strip (s : list ascii) : list ascii :=
  reverse (lstrip (reverse (lstrip s))).

(** [s.startswith('#')] *)
Definition startswith_hash (s : list ascii) : bool :=
  match s with
  | c :: _ => Ascii.eqb c hash
  | [] => false
  end.

Fixpoint before_space (s : list ascii) : list ascii :=
  match s with
  | c :: s' => if Ascii.eqb c space then [] else c :: before_space s'
  | [] => []
  end.

(** [s.split(' ', 1)]: cut at the first space, if there is one. *)
Definition split_space_1 (s : list ascii) : list (list ascii) :=
  match drop (length (before_space s)) s with
  | [] => [s]
  | _ :: after => [before_space s; after]
  end.

(** The white space [int()] accepts around a number: the six ASCII
    blanks, and the two blanks above 127 (read as a space). *)
Definition int_space (c : ascii) : bool :=
  let n := cp c in
  in_range 0x09 0x0D n || (n =? 0x20)%N || (n =? 0x85)%N || (n =? 0xA0)%N.

Fixpoint skip_int_space (s : list ascii) : list ascii :=
  match s with
  | c :: s' => if int_space c then skip_int_space s' else s
  | [] => []
  end.

Definition is_decimal_digit (c : ascii) : bool := in_range 0x30 0x39 (cp c).

(** The scan over digits and underscores: [None] for two underscores in a
    row; otherwise whether the last character read was an underscore, the
    number of digits, their decimal value, and the rest of the text. *)
Fixpoint scan_digits (s : list ascii) (prev_underscore : bool) (digits : nat) (value : Z)
    : option (bool * nat * Z * list ascii) :=
  match s with
  | c :: s' =>
      if is_decimal_digit c
      then scan_digits s' false (S digits) (value * 10 + (ord c - 48))%Z
      else if Ascii.eqb c underscore
      then if prev_underscore then None else scan_digits s' true digits value
      else Some (prev_underscore, digits, value, s)
  | [] => Some (prev_underscore, digits, value, [])
  end.

Definition startswith_underscore (s : list ascii) : bool :=
  match s with
  | c :: _ => Ascii.eqb c underscore
  | [] => false
  end.

(** [int(s)] in base 10, [None] for [ValueError]: blanks, an optional
    sign, digits with single underscores between them, blanks, and
    nothing else.  [max_str_digits] is the interpreter's limit on the
    number of digits ([sys.get_int_max_str_digits()], 4300 unless
    changed; 0, or an interpreter older than the limit, means none); it
    only applies to more than 640 digits. *)
Definition py_int (max_str_digits : nat) (s : list ascii) : option Z :=
  let s := skip_int_space s in
  let signed :=
    match s with
    | c :: s' =>
        if Ascii.eqb c plus_sign then (1%Z, s')
        else if Ascii.eqb c minus_sign then ((-1)%Z, s')
        else (1%Z, s)
    | [] => (1%Z, s)
    end in
  let sign := signed.1 in
  let s := signed.2 in
  if startswith_underscore s then None
  else
    match scan_digits s false 0 0%Z with
    | None => None
    | Some (prev_underscore, digits, value, rest) =>
        if prev_underscore then None
        else if (640 <? digits) && (0 <? max_str_digits) && (max_str_digits <? digits)
        then None
        else if length rest =? length s then None
        else
          match skip_int_space rest with
          | [] => Some (sign * value)%Z
          | _ :: _ => None
          end
    end.

(** The body of [for line in f], [lines] being the list built so far. *)
Definition parse_line (max_str_digits : nat) (lines : list (Z * list ascii))
    (line : list ascii) : list (Z * list ascii) :=
  let line := strip line in
  if bool_decide (line = []) || startswith_hash line then lines
  else
    let parts := split_space_1 line in
    if length parts <? 2 then lines
    else
      match py_int max_str_digits (default [] (parts !! 0)) with
      | Some line_num =>
          let line_text := if 1 <? length parts then default [] (parts !! 1) else [] in
          lines ++ [(line_num, line_text)]
      | None => lines
      end.

Definition parse_basic_file (max_str_digits : nat) (text : list ascii)
    : list (Z * list ascii) :=
  fold_left (parse_line max_str_digits) (file_lines text) [].

(** ** The whole program

    [argv] is [sys.argv] and [input_text] the text of the file named by
    [argv[1]]. *)
Definition main (max_str_digits : nat) (argv : list (list ascii)) (input_text : list ascii)
    : outcome :=
  if bool_decide (length argv <> 3)
  then Exit "Usage: tokenize.py input.bas output.prg" 1
  else main_block (parse_basic_file max_str_digits input_text).

(** ** The image layout in the words of the specification *)

(** Two bytes, little-endian. *)
Definition le16 (x : Z) : list Z := [x mod 256; x / 256]%Z.

(** One record: link, line number, tokenized statement, end-of-line zero. *)
Definition line_record (link line_num : Z) (body : list Z) : list Z :=
  le16 link ++ le16 line_num ++ body ++ [0%Z].

(** File offset [X] maps to memory address [load_addr + X - 2]. *)
Definition address_of (load_addr : Z) (offset : nat) : Z :=
  (load_addr + Z.of_nat offset - 2)%Z.

Definition offset_of (load_addr : Z) (addr : Z) : nat :=
  Z.to_nat (addr - load_addr + 2).

(** The records of the tokenized lines [(number, bytes)], the first one
    starting at file offset [offset]; each link is the address of the
    byte after the record. *)
Fixpoint line_records (load_addr : Z) (offset : nat) (lines : list (Z * list Z)) : list Z :=
  match lines with
  | [] => []
  | line :: rest =>
      let next := offset + 4 + length line.2 + 1 in
      line_record (address_of load_addr next) line.1 line.2
        ++ line_records load_addr next rest
  end.

Definition prg_layout (load_addr : Z) (lines : list (Z * list Z)) : list Z :=
  le16 load_addr ++ line_records load_addr 2 lines ++ [0; 0]%Z.

(** The file offsets of the link fields: one per record, then the
    end-of-chain sentinel. *)
Fixpoint link_offsets (offset : nat) (lines : list (Z * list Z)) : list nat :=
  match lines with
  | [] => [offset]
  | line :: rest => offset :: link_offsets (offset + 4 + length line.2 + 1) rest
  end.

(** [tls] are the tokenized forms of [basic_lines]. *)
Definition tokenized_as (basic_lines : list (Z * list ascii)) (tls : list (Z * list Z)) : Prop :=
  Forall2 (fun line tl => tl.1 = line.1 /\ tokenize_line line.2 = Some tl.2) basic_lines tls.

(** ** Decoding the chain of links of an image *)

(** The 16-bit little-endian word at a file offset. *)
Definition read_u16 (img : list Z) (offset : nat) : option Z :=
  lo ← img !! offset; hi ← img !! (offset + 1); Some (lo + 256 * hi)%Z.

(** Follow the links from the link field at [offset].  The answer lists
    the offsets of the link fields visited, the last one holding the zero
    link; there is no answer when a field lies outside the image, when a
    link does not point strictly forward to a field inside the image, or
    when [hops] links did not reach the zero link. *)
Fixpoint follow_chain (hops : nat) (img : list Z) (load_addr : Z) (offset : nat)
    : option (list nat) :=
  link ← read_u16 img offset;
  if bool_decide (link = 0%Z) then Some [offset]
  else
    match hops with
    | 0 => None
    | S hops' =>
        let next := offset_of load_addr link in
        if bool_decide (offset < next /\ next + 2 <= length img
                        /\ address_of load_addr next = link)
        then cons offset <$> follow_chain hops' img load_addr next
        else None
    end.

(** ** Auxiliary predicates on spellings and characters *)

(** No two adjacent code points are both the letter S; this is what rules
    out sharp s, whose uppercase is SS, inside a matched span. *)
Fixpoint no_double_S (u : list N) : bool :=
  match u with
  | a :: u' =>
      match u' with
      | b :: _ => negb ((a =? 0x53)%N && (b =? 0x53)%N) && no_double_S u'
      | [] => true
      end
  | [] => true
  end.

(** The suffix characters of the word-boundary rule: alphanumeric, [$]
    or [%]. *)
Definition is_boundary_char (c : ascii) : bool := isalnum c || in_dollar_percent c.


(** All 256 characters. *)
Definition all_ascii : list ascii := map ascii_of_nat (seq 0 256).

(** A test on the first part [a] of a text that is enough to know that a
    candidate is not accepted at position [p], whatever follows [a]:
    either the matched span and the character behind it lie inside [a]
    and the candidate is not accepted there, or the part of the span
    inside [a] already differs from the spelling. *)
Definition no_accept_local (a : list ascii) (p : nat) (token_name : string) : bool :=
  if bool_decide (p + String.length token_name + 1 <= length a)
  then negb (accepts a p token_name)
  else negb (bool_decide
               (upper (take (String.length token_name) (drop p a))
                  `prefix_of` spelling token_name)).

(** The same test for a text that begins with [a] and goes on with a
    character satisfying [ok]: either [a] alone settles it, or [a] with
    each such character does. *)
Definition no_accept_before (a : list ascii) (ok : ascii -> bool) (p : nat)
    (token_name : string) : bool :=
  if no_accept_local a p token_name then true
  else forallb (fun c => if ok c then no_accept_local (a ++ [c]) p token_name else true)
         all_ascii.




(** ** Further notions used to state properties *)


(** What a byte of tokenized text can be: the code of a character of the
    text, or a code of the table. *)
Definition byte_of_text_or_table (line_text : list ascii) (b : Z) : Prop :=
  (exists c, c ∈ line_text /\ b = ord c) \/ (exists k, (k, b) ∈ TOKENS).

(** The part of the state a keyword match leaves behind. *)
Definition after_match (line_text : list ascii) (st : scan_state)
    (token_name : string) (token_value : Z) : scan_state :=
  {| i := skip_spaces line_text (i st + String.length token_name);
     in_quote := false;
     in_rem := if String.eqb token_name "REM" then true else false;
     result := result st ++ [token_value] |}.

(** The number of bytes the records of tokenized lines take: link, line
    number and end marker are five bytes. *)
Fixpoint records_size (tls : list (Z * list Z)) : nat :=
  match tls with
  | [] => 0
  | tl :: rest => 5 + length tl.2 + records_size rest
  end.

(** The same count on the source lines, one byte per character. *)
Fixpoint source_size (basic_lines : list (Z * list ascii)) : nat :=
  match basic_lines with
  | [] => 0
  | line :: rest => 5 + length line.2 + source_size rest
  end.

(** Reading an image back: from the link field at [offset], the line
    number and the statement bytes of every record up to the zero link.
    There is no answer when a field lies outside the image, when a link
    leaves no room for a record, or when [hops] links did not reach the
    zero link. *)
Fixpoint decode_records (hops : nat) (img : list Z) (load_addr : Z) (offset : nat)
    : option (list (Z * list Z)) :=
  link ← read_u16 img offset;
  if bool_decide (link = 0%Z) then Some []
  else
    match hops with
    | 0 => None
    | S hops' =>
        let next := offset_of load_addr link in
        if bool_decide (offset + 5 <= next /\ next + 2 <= length img) then
          line_num ← read_u16 img (offset + 2);
          rest ← decode_records hops' img load_addr next;
          Some ((line_num, take (next - offset - 5) (drop (offset + 4) img)) :: rest)
        else None
    end.

(** What one line of the file contributes to the list: nothing, or one
    pair of a line number and a statement text. *)
Definition line_entry (max_str_digits : nat) (line : list ascii) : option (Z * list ascii) :=
  let s := strip line in
  if bool_decide (s = []) || startswith_hash s then None
  else
    match drop (length (before_space s)) s with
    | [] => None
    | _ :: line_text =>
        line_num ← py_int max_str_digits (before_space s);
        Some (line_num, line_text)
    end.

(** The number a sequence of decimal digits denotes. *)
Definition decimal_value (ds : list ascii) : Z :=
  fold_left (fun v c => (v * 10 + (ord c - 48))%Z) ds 0%Z.

(** A source line as a file holds it: the digits of the line number, one
    space, the statement and a newline. *)
Definition source_line (p : list ascii * list ascii) : list ascii :=
  p.1 ++ space :: p.2 ++ [LF].

(** Digits and statement are such that the line reads back as written:
    at least one digit and no more than the interpreter converts, a
    statement that is not empty, does not end in a blank and holds no
    line break. *)
Definition well_formed_line (max_str_digits : nat) (p : list ascii * list ascii) : Prop :=
  p.1 <> [] /\ Forall (fun c => is_decimal_digit c = true) p.1 /\
  (length p.1 <= 640 \/ max_str_digits = 0 \/ length p.1 <= max_str_digits) /\
  p.2 <> [] /\ (forall c, last p.2 = Some c -> isspace c = false) /\
  (LF ∉ p.2) /\ (CR ∉ p.2).

(** Two characters that differ at most in case. *)
Definition same_upper (c c' : ascii) : Prop := upper_char c = upper_char c'.


(** Characters of one case class are alike for everything the scanner
    asks about a character. *)
Definition same_class (c c' : ascii) : bool :=
  bool_decide (isalnum c = isalnum c')
  && bool_decide (in_dollar_percent c = in_dollar_percent c')
  && bool_decide (Ascii.eqb c dquote = Ascii.eqb c' dquote)
  && bool_decide (Ascii.eqb c space = Ascii.eqb c' space).


(** The characters behind a word keyword that let it be tokenized: not
    alphanumeric, not [$] or [%], and not the [#] that makes [INPUT] and
    [PRINT] part of the longer keywords [INPUT#] and [PRINT#]. *)
Definition ok_after (token_name : string) (c : ascii) : bool :=
  negb (is_boundary_char c)
  && negb ((String.eqb token_name "INPUT" || String.eqb token_name "PRINT")
           && Ascii.eqb c hash).

(** Every candidate tried before the word keyword [x] is rejected at the
    start of a text that begins with the spelling of [x] and goes on with
    such a character. *)
Definition earlier_rejected (x : string * Z) : bool :=
  if first_isalpha x.1
  then forallb (fun y =>
         if bool_decide (tried_before y x)
         then no_accept_before (str x.1) (ok_after x.1) 0 y.1
         else true) SORTED_TOKENS
  else true.



(** ** Texts with characters above U+00FF

    A Python [str] holds any code points, and [tokenize_line] is handed
    what the input file decodes to.  The definitions above cover the
    characters up to U+00FF, for which [bytearray.append(ord(c))] cannot
    fail.  Here the same program text is modelled for every text, with
    the [ValueError] that [bytearray.append] raises for a value outside
    [range(256)].  A character above U+00FF comes with what the built-ins
    answer on it, its [upper()] and its [isalnum()], so that nothing is
    assumed about the Unicode tables. *)
Module Unicode.

(** A character: one of the 256 characters up to U+00FF, or the
    character with code point [256 + n]. *)
Inductive character : Type :=
  | Latin1 (c : ascii)
  | Above (n : N) (to_upper : list N) (alnum : bool).

(** [ord(c)] *)
Definition ord (c : character) : Z :=
  match c with
  | Latin1 a => ord a
  | Above n _ _ => 256 + Z.of_N n
  end.

(** [c.upper()] and [s.upper()], which maps character by character. *)
Definition upper_char (c : character) : list N :=
  match c with
  | Latin1 a => upper_char a
  | Above _ to_upper _ => to_upper
  end.

Definition upper (s : list character) : list N := flat_map upper_char s.

(** [c.isalnum()] *)
Definition isalnum (c : character) : bool :=
  match c with
  | Latin1 a => isalnum a
  | Above _ _ alnum => alnum
  end.

(** [c in '$%'] *)
Definition in_dollar_percent (c : character) : bool :=
  match c with
  | Latin1 a => in_dollar_percent a
  | Above _ _ _ => false
  end.

(** [c == a] for a character [a] written in the program text. *)
Definition is_char (a : ascii) (c : character) : bool :=
  match c with
  | Latin1 b => Ascii.eqb b a
  | Above _ _ _ => false
  end.

(** The letter [π], U+03C0: its [upper()] is U+03A0 and it is
    alphanumeric. *)
Definition small_pi : character := Above (0x3C0 - 0x100) [0x3A0%N] true.

(** [line_text[i:i+len(token_name)].upper() == token_name] *)
Definition slice_matches (line_text : list character) (i : nat) (token_name : string) : bool :=
  bool_decide (upper (take (String.length token_name) (drop i line_text)) = spelling token_name).

(** The guard of the [continue]. *)
Definition boundary_rejects (line_text : list character) (i : nat) (token_name : string)
    : bool :=
  first_isalpha token_name &&
  match line_text !! (i + String.length token_name) with
  | Some next_char => isalnum next_char || in_dollar_percent next_char
  | None => false
  end.

(** The [for token_name, token_value in SORTED_TOKENS] loop. *)
Fixpoint match_tokens (line_text : list character) (i : nat)
    (candidates : list (string * Z)) : option (string * Z) :=
  match candidates with
  | [] => None
  | (token_name, token_value) :: rest =>
      if slice_matches line_text i token_name then
        if boundary_rejects line_text i token_name
        then match_tokens line_text i rest
        else Some (token_name, token_value)
      else match_tokens line_text i rest
  end.

(** [while i < len(line_text) and line_text[i] == ' ': i += 1] *)
Fixpoint count_spaces (l : list character) : nat :=
  match l with
  | c :: l' => if is_char space c then S (count_spaces l') else 0
  | [] => 0
  end.

Definition skip_spaces (line_text : list character) (i : nat) : nat :=
  i + count_spaces (drop i line_text).

(** What a statement that may raise [ValueError] leaves behind. *)
Inductive raises (A : Type) : Type :=
  | Returns (a : A)
  | ValueError.

Arguments Returns {A} a.
Arguments ValueError {A}.

(** [result.append(b)]: [ValueError] unless [b] is in [range(256)]. *)
Definition append (res : list Z) (b : Z) : raises (list Z) :=
  if bool_decide (0 <= b < 256)%Z then Returns (res ++ [b]) else ValueError.

(** [result.append(ord(char)); i += 1] *)
Definition copy_char (char : character) (st : scan_state) : raises scan_state :=
  match append (result st) (ord char) with
  | Returns res =>
      Returns {| i := i st + 1; in_quote := in_quote st; in_rem := in_rem st;
                 result := res |}
  | ValueError => ValueError
  end.

(** One iteration of the outer [while] body. *)
Definition step (line_text : list character) (st : scan_state) : raises scan_state :=
  match line_text !! i st with
  | None => Returns st
  | Some char =>
      if is_char dquote char then
        match append (result st) (ord char) with
        | Returns res =>
            Returns {| i := i st + 1; in_quote := negb (in_quote st);
                       in_rem := in_rem st; result := res |}
        | ValueError => ValueError
        end
      else if in_quote st || in_rem st then copy_char char st
      else
        match match_tokens line_text (i st) SORTED_TOKENS with
        | Some (token_name, token_value) =>
            match append (result st) token_value with
            | Returns res =>
                Returns {| i := skip_spaces line_text (i st + String.length token_name);
                           in_quote := in_quote st;
                           in_rem := if String.eqb token_name "REM" then true
                                     else in_rem st;
                           result := res |}
            | ValueError => ValueError
            end
        | None => copy_char char st
        end
  end.

(** The outer [while i < len(line_text)] loop, with a bound on the number
    of iterations; [None] means the bound was too small, and an
    iteration that raises ends the loop. *)
Fixpoint loop (fuel : nat) (line_text : list character) (st : scan_state)
    : option (raises scan_state) :=
  if bool_decide (i st < length line_text) then
    match fuel with
    | 0 => None
    | S fuel' =>
        match step line_text st with
        | Returns st' => loop fuel' line_text st'
        | ValueError => Some ValueError
        end
    end
  else Some (Returns st).

(** [tokenize_line(line_text)] *)
Definition tokenize_line (line_text : list character) : option (raises (list Z)) :=
  match loop (length line_text) line_text init_state with
  | Some (Returns st) => Some (Returns (result st))
  | Some ValueError => Some ValueError
  | None => None
  end.

End Unicode.

(** * Properties *)

(** ** The candidate loop *)

Lemma match_tokens_cons line_text p x l :
  match_tokens line_text p (x :: l) =
  if accepts line_text p x.1 then Some x else match_tokens line_text p l.
Proof.
  destruct x as [n v]. unfold accepts. simpl.
  destruct (slice_matches line_text p n), (boundary_rejects line_text p n); reflexivity.
Qed.

Lemma match_tokens_None line_text p l :
  match_tokens line_text p l = None <->
  Forall (fun x => accepts line_text p x.1 = false) l.
Proof.
  induction l as [|x l IH].
  - split; [constructor | reflexivity].
  - rewrite match_tokens_cons, Forall_cons.
    destruct (accepts line_text p x.1); [split; [discriminate | intros [? _]; discriminate] |].
    rewrite IH. tauto.
Qed.

Lemma match_tokens_Some line_text p l x :
  match_tokens line_text p l = Some x <->
  exists l1 l2, l = l1 ++ x :: l2 /\ accepts line_text p x.1 = true /\
                Forall (fun y => accepts line_text p y.1 = false) l1.
Proof.
  induction l as [|y l IH].
  - split; [discriminate | intros ([|? ?] & ? & ? & _); discriminate].
  - rewrite match_tokens_cons. destruct (accepts line_text p y.1) eqn:Hy.
    + split.
      * intros [= ->]. exists [], l. auto.
      * intros ([|z l1] & l2 & Heq & Hx & Hl1); simplify_eq/=; [reflexivity|].
        apply Forall_cons in Hl1 as [Hz _]. congruence.
    + rewrite IH. split.
      * intros (l1 & l2 & -> & Hx & Hl1). exists (y :: l1), l2. auto.
      * intros ([|z l1] & l2 & Heq & Hx & Hl1); simplify_eq/=; [congruence|].
        apply Forall_cons in Hl1 as [_ Hl1]. eauto.
Qed.

Lemma match_tokens_elem line_text p l x :
  match_tokens line_text p l = Some x -> x ∈ l /\ accepts line_text p x.1 = true.
Proof.
  rewrite match_tokens_Some. intros (l1 & l2 & -> & Hx & _). split; [|done].
  apply elem_of_app. right. left.
Qed.

Lemma spellings_nonempty : Forall (fun x => 0 < String.length x.1) SORTED_TOKENS.
Proof. apply (bool_decide_unpack _). vm_compute. exact I. Qed.

(** ** The scanning loop *)




Lemma step_matched line_text st char token_name token_value :
  line_text !! i st = Some char -> char <> dquote ->
  in_quote st = false -> in_rem st = false ->
  match_tokens line_text (i st) SORTED_TOKENS = Some (token_name, token_value) ->
  step line_text st =
    {| i := skip_spaces line_text (i st + String.length token_name);
       in_quote := false;
       in_rem := if String.eqb token_name "REM" then true else false;
       result := result st ++ [token_value] |}.
Proof.
  intros Hc Hq Hiq Hir Hm. unfold step. rewrite Hc.
  destruct (Ascii.eqb_spec char dquote) as [|_]; [done|].
  rewrite Hiq, Hir, Hm. reflexivity.
Qed.

Lemma step_unmatched line_text st char :
  line_text !! i st = Some char -> char <> dquote ->
  in_quote st = false -> in_rem st = false ->
  match_tokens line_text (i st) SORTED_TOKENS = None ->
  step line_text st = copy_char char st.
Proof.
  intros Hc Hq Hiq Hir Hm. unfold step. rewrite Hc.
  destruct (Ascii.eqb_spec char dquote) as [|_]; [done|].
  rewrite Hiq, Hir, Hm. reflexivity.
Qed.



(** Every iteration moves [i] forward and appends exactly one byte. *)
Lemma step_progress line_text st :
  i st < length line_text ->
  i st < i (step line_text st) /\
  exists b, result (step line_text st) = result st ++ [b].
Proof.
  intros Hlt. destruct (lookup_lt_is_Some_2 _ _ Hlt) as [char Hc].
  unfold step. rewrite Hc.
  destruct (Ascii.eqb char dquote); [simpl; split; [lia | eauto] |].
  destruct (in_quote st || in_rem st); [simpl; split; [lia | eauto] |].
  destruct (match_tokens line_text (i st) SORTED_TOKENS) as [[n v]|] eqn:Hm;
    [| simpl; split; [lia | eauto]].
  simpl. split; [| eauto].
  apply match_tokens_elem in Hm as [Hin _].
  pose proof (proj1 (Forall_forall _ _) spellings_nonempty _ Hin) as Hn. simpl in Hn.
  unfold skip_spaces. lia.
Qed.

Lemma loop_done fuel line_text st :
  length line_text <= i st -> loop fuel line_text st = Some st.
Proof.
  intros H. destruct fuel; simpl; rewrite bool_decide_eq_false_2 by lia; reflexivity.
Qed.

Lemma loop_step fuel line_text st :
  i st < length line_text ->
  loop (S fuel) line_text st = loop fuel line_text (step line_text st).
Proof. intros H. simpl. rewrite bool_decide_eq_true_2 by lia. reflexivity. Qed.

Lemma loop_Some_inv fuel line_text st fin :
  loop fuel line_text st = Some fin ->
  (length line_text <= i st /\ fin = st) \/
  (i st < length line_text /\ exists fuel', fuel = S fuel' /\
     loop fuel' line_text (step line_text st) = Some fin).
Proof.
  intros H. destruct (decide (i st < length line_text)) as [Hlt|Hge].
  - right. split; [done|]. destruct fuel as [|f].
    + simpl in H. rewrite bool_decide_eq_true_2 in H by lia. discriminate.
    + rewrite loop_step in H by done. eauto.
  - left. rewrite loop_done in H by lia. split; [lia | congruence].
Qed.

(** [len(line_text) - i] iterations always suffice. *)
Lemma loop_enough line_text fuel st :
  length line_text - i st <= fuel ->
  exists fin, loop fuel line_text st = Some fin /\ length line_text <= i fin.
Proof.
  revert st. induction fuel as [|fuel IH]; intros st Hf.
  - exists st. split; [apply loop_done; lia | lia].
  - destruct (decide (i st < length line_text)) as [Hlt|Hge].
    + rewrite loop_step by done. apply IH.
      pose proof (step_progress line_text st Hlt) as [? _]. lia.
    + exists st. split; [apply loop_done; lia | lia].
Qed.

(** A property kept by every iteration holds when the loop is left. *)
Lemma loop_invariant (P : scan_state -> Prop) line_text :
  (forall st, P st -> i st < length line_text -> P (step line_text st)) ->
  forall fuel st fin, P st -> loop fuel line_text st = Some fin -> P fin.
Proof.
  intros Hstep fuel. induction fuel as [|fuel IH]; intros st fin HP Hl;
    apply loop_Some_inv in Hl as [[_ ->]|[Hlt (f & Hf & Hl)]]; try done.
  simplify_eq. eauto.
Qed.

Lemma loop_result_prefix fuel line_text st fin :
  loop fuel line_text st = Some fin -> result st `prefix_of` result fin.
Proof.
  apply (loop_invariant (fun s => result st `prefix_of` result s)); [|done].
  intros s Hs Hlt. destruct (step_progress line_text s Hlt) as [_ [b ->]].
  by apply prefix_app_r.
Qed.


(** The result does not depend on the bound once it is large enough. *)
Lemma loop_fuel_irrelevant line_text fuel fuel' st fin :
  loop fuel line_text st = Some fin -> length line_text - i st <= fuel' ->
  loop fuel' line_text st = Some fin.
Proof.
  revert fuel' st. induction fuel as [|fuel IH]; intros fuel' st Hl Hf;
    apply loop_Some_inv in Hl as [[? ->]|[Hlt (f & Hfu & Hl)]]; try done.
  - by apply loop_done.
  - by apply loop_done.
  - simplify_eq. destruct fuel' as [|fuel']; [lia|].
    rewrite loop_step by done. apply IH; [done|].
    pose proof (step_progress line_text st Hlt) as [? _]. lia.
Qed.

Lemma tokenize_line_total line_text :
  exists fin, loop (length line_text) line_text init_state = Some fin /\
              tokenize_line line_text = Some (result fin).
Proof.
  destruct (loop_enough line_text (length line_text) init_state) as (fin & Hl & _);
    [simpl; lia|].
  exists fin. split; [done|]. unfold tokenize_line. rewrite Hl. reflexivity.
Qed.

Lemma sorted_tokens_in_table : Forall (fun x => x ∈ TOKENS) SORTED_TOKENS.
Proof. apply (bool_decide_unpack _). vm_compute. exact I. Qed.


(** ** C4: what a keyword match does *)



(** ** C7: the order in which candidates are tried *)

Lemma SORTED_TOKENS_eq : SORTED_TOKENS = sorted_by_key TOKENS.
Proof. vm_compute. reflexivity. Qed.

Lemma SORTED_TOKENS_sorted : StronglySorted tried_before SORTED_TOKENS.
Proof. apply (bool_decide_unpack _). vm_compute. exact I. Qed.

(** C7. [SORTED_TOKENS] holds the entries of [TOKENS], longer spellings
    before shorter ones and spellings of one length in ascending
    lexicographic order; at a scan position outside quotes and comments
    the entry that is tokenized is the accepted entry (spelling matches,
    word-boundary guard passed) before which, in that order, no entry is
    accepted, and when no entry is accepted the character is copied. *)
Theorem candidates_tried_in_sorted_order :
  SORTED_TOKENS ≡ₚ TOKENS /\
  StronglySorted tried_before SORTED_TOKENS /\
  forall line_text st char,
    line_text !! i st = Some char -> char <> dquote ->
    in_quote st = false -> in_rem st = false ->
    (forall x, x ∈ SORTED_TOKENS ->
       accepts line_text (i st) x.1 = true ->
       (forall y, y ∈ SORTED_TOKENS -> tried_before y x ->
                  accepts line_text (i st) y.1 = false) ->
       match_tokens line_text (i st) SORTED_TOKENS = Some x /\
       result (step line_text st) = result st ++ [x.2]) /\
    ((forall y, y ∈ SORTED_TOKENS -> accepts line_text (i st) y.1 = false) ->
       match_tokens line_text (i st) SORTED_TOKENS = None /\
       step line_text st = copy_char char st).
Proof.
  pose proof SORTED_TOKENS_sorted as Hsorted.
  split; [rewrite SORTED_TOKENS_eq; apply merge_sort_Permutation |].
  split; [done |].
  intros line_text st char Hc Hq Hiq Hir. split.
  - intros [n v] Hin Hacc Hbefore.
    assert (Hm : match_tokens line_text (i st) SORTED_TOKENS = Some (n, v)).
    { apply list_elem_of_split in Hin as (l1 & l2 & Heq).
      apply match_tokens_Some. exists l1, l2. split; [done|]. split; [done|].
      apply Forall_forall. intros y Hy. apply Hbefore.
      - rewrite Heq. apply elem_of_app. by left.
      - rewrite Heq in Hsorted.
        eapply StronglySorted_app_1_elem_of; [done | done | left]. }
    split; [done|]. by rewrite (step_matched _ _ _ _ _ Hc Hq Hiq Hir Hm).
  - intros Hnone.
    assert (Hm : match_tokens line_text (i st) SORTED_TOKENS = None).
    { apply match_tokens_None, Forall_forall. done. }
    split; [done|]. by apply step_unmatched.
Qed.

(** At the start of [INPUT# X] two entries are accepted, [INPUT#] and
    [INPUT]; the longer one is tried first and is the one tokenized.  At
    the start of [TOTAL] no entry is accepted: [TO] matches but is
    followed by a letter. *)
Lemma candidates_tried_in_sorted_order_witness :
  (accepts (str "INPUT# X") 0 "INPUT" = true /\
   tried_before ("INPUT#", 0x84%Z) ("INPUT", 0x85%Z) /\
   match_tokens (str "INPUT# X") 0 SORTED_TOKENS = Some ("INPUT#", 0x84%Z) /\
   result (step (str "INPUT# X") init_state) = result init_state ++ [0x84%Z]) /\
  (match_tokens (str "TOTAL") 0 SORTED_TOKENS = None /\
   step (str "TOTAL") init_state = copy_char "T"%char init_state).
Proof.
  split.
  - split; [reflexivity|]. split; [left; simpl; lia|].
    refine (proj1 (proj2 (proj2 candidates_tried_in_sorted_order)
                     (str "INPUT# X") init_state "I"%char _ _ _ _)
              ("INPUT#", 0x84%Z) _ _ _).
    + reflexivity.
    + discriminate.
    + reflexivity.
    + reflexivity.
    + apply (bool_decide_unpack _). vm_compute. exact I.
    + reflexivity.
    + apply (proj1 (Forall_forall
               (fun y => tried_before y ("INPUT#", 0x84%Z) ->
                         accepts (str "INPUT# X") 0 y.1 = false) SORTED_TOKENS)).
      apply (bool_decide_unpack _). vm_compute. exact I.
  - refine (proj2 (proj2 (proj2 candidates_tried_in_sorted_order)
                     (str "TOTAL") init_state "T"%char _ _ _ _) _).
    + reflexivity.
    + discriminate.
    + reflexivity.
    + reflexivity.
    + apply Forall_forall. apply (bool_decide_unpack _). vm_compute. exact I.
Defined.

(** ** Quoted text *)


(** ** The builder *)

Lemma pack_H_Some x bs : pack_H x = Some bs -> (0 <= x <= 65535)%Z /\ bs = le16 x.
Proof. unfold pack_H. case_bool_decide; [|done]. by intros [= <-]. Qed.

Lemma length_line_record link line_num body :
  length (line_record link line_num body) = 4 + length body + 1.
Proof. unfold line_record, le16. rewrite !length_app. simpl. lia. Qed.

Lemma add_line_Some load_addr prg line prg' :
  add_line load_addr prg line = Some prg' ->
  exists body, tokenize_line line.2 = Some body /\
    (0 <= line.1 <= 65535)%Z /\
    (0 <= address_of load_addr (length prg + 4 + length body + 1) <= 65535)%Z /\
    prg' = prg ++ line_record (address_of load_addr (length prg + 4 + length body + 1))
                    line.1 body.
Proof.
  unfold add_line. intros H.
  destruct (pack_H line.1) as [packed|] eqn:Hp; [|done].
  apply pack_H_Some in Hp as [Hnum ->].
  destruct (tokenize_line line.2) as [body|] eqn:Ht; [|done].
  simpl in H. unfold pack_into_H in H.
  case_bool_decide as Hlink; [|done]. case_bool_decide as Hlen; [|done].
  simplify_eq. exists body. split; [done|]. split; [done|].
  assert (Hl : length ((((prg ++ [0; 0]%Z) ++ le16 line.1) ++ body) ++ [0%Z])
               = length prg + 4 + length body + 1).
  { rewrite !length_app. simpl. lia. }
  rewrite Hl in *. unfold address_of. split; [done|].
  rewrite <- !app_assoc. simpl.
  rewrite (insert_app_r_alt prg _ (length prg + 1)) by lia.
  rewrite (insert_app_r_alt prg _ (length prg)) by lia.
  replace (length prg + 1 - length prg) with 1 by lia.
  replace (length prg - length prg) with 0 by lia.
  reflexivity.
Qed.

Lemma add_line_succeeds load_addr prg line body :
  tokenize_line line.2 = Some body -> (0 <= line.1 <= 65535)%Z ->
  (0 <= address_of load_addr (length prg + 4 + length body + 1) <= 65535)%Z ->
  add_line load_addr prg line
  = Some (prg ++ line_record (address_of load_addr (length prg + 4 + length body + 1))
                   line.1 body).
Proof.
  intros Ht Hnum Hlink.
  destruct (add_line load_addr prg line) as [prg'|] eqn:H.
  - apply add_line_Some in H as (body' & Ht' & _ & _ & ->). congruence.
  - exfalso. unfold add_line, pack_H in H.
    rewrite bool_decide_eq_true_2 in H by done. simpl in H. rewrite Ht in H.
    simpl in H. unfold pack_into_H in H.
    assert (Hl : length ((((prg ++ [0; 0]%Z) ++ [line.1 `mod` 256; line.1 `div` 256]%Z)
                          ++ body) ++ [0%Z])
                 = length prg + 4 + length body + 1).
    { rewrite !length_app. simpl. lia. }
    rewrite Hl in H. unfold address_of in Hlink.
    rewrite bool_decide_eq_true_2 in H by done.
    rewrite bool_decide_eq_true_2 in H by lia. discriminate.
Qed.

Lemma add_lines_Some load_addr basic_lines : forall prg prg',
  add_lines load_addr prg basic_lines = Some prg' ->
  exists tls, tokenized_as basic_lines tls /\
    prg' = prg ++ line_records load_addr (length prg) tls /\
    Forall (fun line => (0 <= line.1 <= 65535)%Z) basic_lines /\
    (basic_lines <> [] -> (address_of load_addr (length prg') <= 65535)%Z).
Proof.
  induction basic_lines as [|line rest IH]; intros prg prg' H; simpl in H.
  - simplify_eq. exists []. split; [constructor|]. split; [by rewrite app_nil_r|].
    split; [constructor | done].
  - destruct (add_line load_addr prg line) as [prg1|] eqn:H1; [|done]. simpl in H.
    apply add_line_Some in H1 as (body & Ht & Hnum & Hlink & ->).
    assert (Hlen1 : length (prg ++ line_record
                      (address_of load_addr (length prg + 4 + length body + 1)) line.1 body)
                    = length prg + 4 + length body + 1).
    { unfold line_record, le16. rewrite !length_app. simpl. lia. }
    pose proof H as Hrest.
    apply IH in H as (tls & Htls & -> & Hnums & Hlast).
    exists ((line.1, body) :: tls). split; [by constructor |]. split; [| split].
    + change (line_records load_addr (length prg) ((line.1, body) :: tls))
        with (line_record (address_of load_addr (length prg + 4 + length body + 1))
                line.1 body
              ++ line_records load_addr (length prg + 4 + length body + 1) tls).
      rewrite <- app_assoc. do 2 f_equal. f_equal. exact Hlen1.
    + by constructor.
    + intros _. destruct rest as [|line2 rest]; [|by apply Hlast].
      simpl in Hrest. injection Hrest as <-. rewrite Hlen1. lia.
Qed.

Lemma add_lines_succeeds load_addr basic_lines tls :
  tokenized_as basic_lines tls -> forall prg,
  Forall (fun line => (0 <= line.1 <= 65535)%Z) basic_lines ->
  (0 <= load_addr)%Z -> 2 <= length prg ->
  (address_of load_addr (length prg + length (line_records load_addr (length prg) tls))
     <= 65535)%Z ->
  add_lines load_addr prg basic_lines
  = Some (prg ++ line_records load_addr (length prg) tls).
Proof.
  induction 1 as [|line tl rest tls [Hn Ht] Hrest IH]; intros prg Hnums Hla Hprg Hend.
  - simpl. by rewrite app_nil_r.
  - apply Forall_cons in Hnums as [Hnum Hnums].
    cbn [line_records] in Hend |- *. rewrite length_app, length_line_record in Hend.
    set (next := length prg + 4 + length tl.2 + 1) in *.
    cbn [add_lines].
    rewrite (add_line_succeeds load_addr prg line tl.2 Ht Hnum)
      by (unfold address_of in *; lia).
    fold next. simpl.
    assert (Hlen1 : length (prg ++ line_record (address_of load_addr next) line.1 tl.2)
                    = next).
    { rewrite length_app, length_line_record. lia. }
    rewrite IH; [| done | done | lia | rewrite Hlen1; unfold address_of in *; lia].
    by rewrite Hlen1, <- app_assoc, Hn.
Qed.

Lemma create_prg_Some basic_lines load_addr img :
  create_prg basic_lines load_addr = Some img ->
  (0 <= load_addr <= 65535)%Z /\
  exists tls, tokenized_as basic_lines tls /\ img = prg_layout load_addr tls /\
    Forall (fun line => (0 <= line.1 <= 65535)%Z) basic_lines /\
    (load_addr + Z.of_nat (length img) - 4 <= 65535)%Z.
Proof.
  unfold create_prg. intros H.
  destruct (pack_H load_addr) as [hdr|] eqn:Hp; [|done].
  apply pack_H_Some in Hp as [Hla ->]. simpl in H.
  destruct (add_lines load_addr (le16 load_addr) basic_lines) as [prg|] eqn:Hl; [|done].
  pose proof Hl as Hl'.
  apply add_lines_Some in Hl as (tls & Htls & Hprg & Hnums & Hlast). injection H as <-.
  split; [done|]. exists tls. split; [done|]. split; [by rewrite Hprg|].
  split; [done|]. rewrite length_app. simpl.
  destruct basic_lines as [|line rest].
  - simpl in Hl'. injection Hl' as <-. simpl. lia.
  - unfold address_of in Hlast. specialize (Hlast ltac:(done)). lia.
Qed.

Lemma create_prg_succeeds basic_lines load_addr tls :
  tokenized_as basic_lines tls ->
  (0 <= load_addr)%Z ->
  (load_addr + Z.of_nat (length (prg_layout load_addr tls)) - 4 <= 65535)%Z ->
  Forall (fun line => (0 <= line.1 <= 65535)%Z) basic_lines ->
  create_prg basic_lines load_addr = Some (prg_layout load_addr tls).
Proof.
  intros Htls Hla Hend Hnums. unfold create_prg, pack_H.
  unfold prg_layout in Hend. rewrite !length_app in Hend. simpl in Hend.
  rewrite bool_decide_eq_true_2 by lia. simpl.
  change [load_addr `mod` 256; load_addr `div` 256]%Z with (le16 load_addr).
  rewrite (add_lines_succeeds load_addr basic_lines tls Htls)
    by (try done; simpl; unfold address_of; lia).
  simpl. reflexivity.
Qed.

(** Every list of lines has tokenized forms, and only one list of them. *)
Lemma tokenized_as_total basic_lines : exists tls, tokenized_as basic_lines tls.
Proof.
  induction basic_lines as [|line rest [tls IH]]; [exists []; constructor|].
  destruct (tokenize_line_total line.2) as (fin & _ & Ht).
  exists ((line.1, result fin) :: tls). by constructor.
Qed.

Lemma tokenized_as_unique basic_lines tls tls' :
  tokenized_as basic_lines tls -> tokenized_as basic_lines tls' -> tls = tls'.
Proof.
  intros H. revert tls'.
  induction H as [|line tl rest tls [Hn Ht] _ IH]; intros tls' H'.
  - by apply Forall2_nil_inv_l in H'.
  - apply Forall2_cons_inv_l in H' as (tl' & tls'' & [Hn' Ht'] & H' & ->).
    f_equal; [|by apply IH].
    destruct tl, tl'; simpl in *; congruence.
Qed.

(** ** C9: the layout of the image *)

(** C9. Let [tls] be the tokenized forms of the input lines.  [create_prg]
    returns an image exactly when the load address, the line numbers and
    the last link fit in 16 bits, and the image is then the load address
    in two little-endian bytes, then for each input line, in input order,
    a record made of the link, the line number, the bytes [tokenize_line]
    returns for its text and one zero byte, then two zero bytes; a line
    whose text is empty has the empty byte sequence as its tokenized
    part, so its record is link, line number and the zero. *)
Theorem create_prg_layout basic_lines load_addr tls :
  tokenized_as basic_lines tls ->
  (forall img,
     create_prg basic_lines load_addr = Some img <->
     img = prg_layout load_addr tls /\
     (0 <= load_addr)%Z /\
     (load_addr + Z.of_nat (length img) - 4 <= 65535)%Z /\
     Forall (fun line => (0 <= line.1 <= 65535)%Z) basic_lines) /\
  (forall k line_num, basic_lines !! k = Some (line_num, []) ->
     tls !! k = Some (line_num, [])) /\
  (forall link line_num,
     line_record link line_num [] = le16 link ++ le16 line_num ++ [0%Z]).
Proof.
  intros Htls. split; [| split; [|done]].
  - intros img. split.
    + intros H. apply create_prg_Some in H as (Hla & tls' & Htls' & -> & Hnums & Hend).
      rewrite (tokenized_as_unique _ _ _ Htls Htls'). split; [done|].
      split; [lia|]. done.
    + intros (-> & Hla & Hend & Hnums). by apply create_prg_succeeds.
  - intros k n Hk.
    destruct (Forall2_lookup_l _ _ _ _ _ Htls Hk) as ([n' body] & Hk' & Hn & Hb).
    simpl in *. rewrite Hk'. vm_compute in Hb. by simplify_eq.
Qed.

(** The single line [(5, "")] at the default load address. *)
Lemma create_prg_layout_witness :
  create_prg [(5%Z, [])] default_load_addr = Some [1; 4; 6; 4; 5; 0; 0; 0; 0]%Z.
Proof.
  refine (proj2 (proj1 (create_prg_layout [(5%Z, [])] default_load_addr [(5%Z, [])] _)
                   [1; 4; 6; 4; 5; 0; 0; 0; 0]%Z) _).
  - constructor; [split; reflexivity | constructor].
  - split; [reflexivity|]. split; [done|]. split; [done|].
    constructor; [done | constructor].
Defined.

(** ** C1: the chain of forward links *)

Lemma read_u16_le16 pre x rest :
  read_u16 (pre ++ le16 x ++ rest) (length pre) = Some x.
Proof.
  unfold read_u16.
  rewrite (lookup_app_r pre) by lia. rewrite (lookup_app_r pre) by lia.
  replace (length pre - length pre) with 0 by lia.
  replace (length pre + 1 - length pre) with 1 by lia.
  simpl. f_equal. pose proof (Z.div_mod x 256). lia.
Qed.

Lemma length_line_records load_addr tls : forall offset,
  last (link_offsets offset tls)
  = Some (offset + length (line_records load_addr offset tls)).
Proof.
  induction tls as [|tl tls IH]; intros offset.
  - simpl. f_equal. lia.
  - cbn [link_offsets line_records]. rewrite last_cons, IH.
    rewrite length_app, length_line_record. f_equal. lia.
Qed.

Lemma length_link_offsets tls : forall offset,
  length (link_offsets offset tls) = length tls + 1.
Proof. induction tls as [|tl tls IH]; intros offset; simpl; [done | by rewrite IH]. Qed.

Lemma link_offsets_head offset tls : link_offsets offset tls !! 0 = Some offset.
Proof. by destruct tls. Qed.

(** The image is cut into what lies before a record and the records from
    there on; this is the shape every step of the chain sees. *)
Lemma chain_step load_addr tl tls pre :
  let img := pre ++ line_records load_addr (length pre) (tl :: tls) ++ [0; 0]%Z in
  let next := length pre + 4 + length tl.2 + 1 in
  read_u16 img (length pre) = Some (address_of load_addr next) /\
  next + 2 <= length img /\
  img = (pre ++ line_record (address_of load_addr next) tl.1 tl.2)
        ++ line_records load_addr next tls ++ [0; 0]%Z /\
  length (pre ++ line_record (address_of load_addr next) tl.1 tl.2) = next.
Proof.
  intros img next. subst img. cbn [line_records]. fold next.
  split; [| split; [| split]].
  - unfold line_record. rewrite <- !app_assoc. apply read_u16_le16.
  - rewrite !length_app, length_line_record. simpl. lia.
  - by rewrite <- !app_assoc.
  - rewrite length_app, length_line_record. lia.
Qed.

Lemma links_point_to_next load_addr tls : forall pre k o o',
  let img := pre ++ line_records load_addr (length pre) tls ++ [0; 0]%Z in
  link_offsets (length pre) tls !! k = Some o ->
  link_offsets (length pre) tls !! S k = Some o' ->
  read_u16 img o = Some (address_of load_addr o') /\ o < o' /\ o' + 2 <= length img /\
  exists tl, tls !! k = Some tl /\ o' = o + 4 + length tl.2 + 1.
Proof.
  induction tls as [|tl tls IH]; intros pre k o o' img Ho Ho'; [done|].
  destruct (chain_step load_addr tl tls pre) as (Hread & Hin & Himg & Hlen).
  fold img in Hread, Hin, Himg.
  set (next := length pre + 4 + length tl.2 + 1) in *.
  destruct k as [|k].
  - cbn [link_offsets lookup list_lookup] in Ho, Ho'. fold next in Ho'.
    rewrite link_offsets_head in Ho'. injection Ho as <-. injection Ho' as <-.
    split; [done|]. split; [lia|]. split; [done|]. exists tl. split; [done|]. lia.
  - cbn [link_offsets lookup list_lookup] in Ho, Ho'. fold next in Ho, Ho'.
    rewrite <- Hlen in Ho, Ho'.
    pose proof (IH _ k o o' Ho Ho') as Hk. cbv zeta in Hk.
    rewrite Hlen, <- Himg in Hk. exact Hk.
Qed.

Lemma chain_followed load_addr tls : forall pre,
  (0 <= load_addr)%Z -> 2 <= length pre ->
  let img := pre ++ line_records load_addr (length pre) tls ++ [0; 0]%Z in
  follow_chain (length tls) img load_addr (length pre)
    = Some (link_offsets (length pre) tls) /\
  forall hops, hops < length tls -> follow_chain hops img load_addr (length pre) = None.
Proof.
  induction tls as [|tl tls IH]; intros pre Hla Hpre img.
  - split; [|simpl; lia]. subst img. cbn [line_records app length follow_chain].
    assert (Hr : read_u16 (pre ++ [0; 0]%Z) (length pre) = Some 0%Z)
      by exact (read_u16_le16 pre 0 []).
    rewrite Hr. reflexivity.
  - destruct (chain_step load_addr tl tls pre) as (Hread & Hin & Himg & Hlen).
    fold img in Hread, Hin, Himg.
    set (next := length pre + 4 + length tl.2 + 1) in *.
    assert (Hlink : address_of load_addr next <> 0%Z) by (unfold address_of; lia).
    assert (Hoff : offset_of load_addr (address_of load_addr next) = next)
      by (unfold offset_of, address_of; lia).
    destruct (IH (pre ++ line_record (address_of load_addr next) tl.1 tl.2) Hla)
      as [IH1 IH2]; [rewrite Hlen; lia|].
    rewrite Hlen, <- Himg in IH1, IH2.
    split.
    + cbn [length follow_chain link_offsets]. fold next. rewrite Hread. simpl.
      rewrite bool_decide_eq_false_2 by done. rewrite Hoff.
      rewrite bool_decide_eq_true_2 by (split; [lia | done]).
      by rewrite IH1.
    + intros [|hops] Hh; simpl; rewrite Hread; simpl;
        rewrite bool_decide_eq_false_2 by done; [done|].
      rewrite Hoff. rewrite bool_decide_eq_true_2 by (split; [lia | done]).
      rewrite IH2 by (simpl in Hh; lia). reflexivity.
Qed.

Lemma tokenized_as_length basic_lines tls :
  tokenized_as basic_lines tls -> length tls = length basic_lines.
Proof. intros H. symmetry. by eapply Forall2_length. Qed.

(** C1. In an image returned by [create_prg] for N lines, the link field
    of every record holds the address [load_addr + offset - 2] of the link
    field that follows it, which lies right behind the record's zero
    terminator, strictly further on and inside the image; the field behind
    the last record is the sentinel, two bytes before the end of the
    image, and holds zero; following the links from the first field, at
    address [load_addr], visits exactly these fields and reaches the zero
    link after N hops and not before. *)
Theorem link_chain_invariant basic_lines load_addr img :
  create_prg basic_lines load_addr = Some img ->
  exists tls, tokenized_as basic_lines tls /\
    let offs := link_offsets 2 tls in
    length offs = length basic_lines + 1 /\
    address_of load_addr 2 = load_addr /\
    (forall k o o', offs !! k = Some o -> offs !! S k = Some o' ->
       read_u16 img o = Some (address_of load_addr o') /\
       o < o' /\ o' + 2 <= length img /\
       exists tl, tls !! k = Some tl /\ o' = o + 4 + length tl.2 + 1) /\
    last offs = Some (length img - 2) /\
    read_u16 img (length img - 2) = Some 0%Z /\
    follow_chain (length basic_lines) img load_addr 2 = Some offs /\
    (forall hops, hops < length basic_lines ->
       follow_chain hops img load_addr 2 = None).
Proof.
  intros H. apply create_prg_Some in H as (Hla & tls & Htls & -> & _ & _).
  exists tls. split; [done|]. intros offs.
  pose proof (tokenized_as_length _ _ Htls) as Hlen.
  assert (Himg : prg_layout load_addr tls
                 = le16 load_addr ++ line_records load_addr (length (le16 load_addr)) tls
                   ++ [0; 0]%Z) by reflexivity.
  destruct (chain_followed load_addr tls (le16 load_addr)) as [Hf1 Hf2];
    [lia | simpl; lia |]. rewrite <- Himg, Hlen in Hf1, Hf2.
  split.
  { subst offs. by rewrite length_link_offsets, Hlen. }
  split; [unfold address_of; lia |].
  split.
  { intros k o o' Ho Ho'. rewrite Himg.
    by apply (links_point_to_next load_addr tls (le16 load_addr)). }
  assert (Hlast : length (prg_layout load_addr tls) - 2
                  = 2 + length (line_records load_addr 2 tls)).
  { unfold prg_layout. rewrite !length_app. simpl. lia. }
  split; [subst offs; rewrite Hlast; apply length_line_records |].
  split.
  { rewrite Hlast. unfold prg_layout.
    change (le16 load_addr ++ line_records load_addr 2 tls ++ [0; 0]%Z)
      with (le16 load_addr ++ line_records load_addr 2 tls ++ le16 0 ++ []).
    rewrite (app_assoc (le16 load_addr)).
    replace (2 + length (line_records load_addr 2 tls))
      with (length (le16 load_addr ++ line_records load_addr 2 tls))
      by (rewrite length_app; reflexivity).
    apply read_u16_le16. }
  split; [exact Hf1 | exact Hf2].
Qed.

(** The two-line program of the specification's scenario. *)
Lemma link_chain_invariant_witness :
  exists tls,
    tokenized_as [(10%Z, str "PRINT " ++ dquote :: str "HELLO" ++ [dquote]);
                  (20%Z, str "GOTO 10")] tls /\
    let img := [1; 4; 14; 4; 10; 0; 153; 34; 72; 69; 76; 76; 79; 34; 0;
                22; 4; 20; 0; 137; 49; 48; 0; 0; 0]%Z in
    let offs := link_offsets 2 tls in
    length offs = 2 + 1 /\
    address_of default_load_addr 2 = default_load_addr /\
    (forall k o o', offs !! k = Some o -> offs !! S k = Some o' ->
       read_u16 img o = Some (address_of default_load_addr o') /\
       o < o' /\ o' + 2 <= length img /\
       exists tl, tls !! k = Some tl /\ o' = o + 4 + length tl.2 + 1) /\
    last offs = Some (length img - 2) /\
    read_u16 img (length img - 2) = Some 0%Z /\
    follow_chain 2 img default_load_addr 2 = Some offs /\
    (forall hops, hops < 2 -> follow_chain hops img default_load_addr 2 = None).
Proof.
  apply (link_chain_invariant
           [(10%Z, str "PRINT " ++ dquote :: str "HELLO" ++ [dquote]);
            (20%Z, str "GOTO 10")] default_load_addr).
  vm_compute. reflexivity.
Defined.

(** ** C2: the two-line scenario *)

(** C2, as the code has it. For the lines 10 PRINT "HELLO" and 20 GOTO 10
    at load address 0x0401 the image is: 01 04; the record of line 10 with
    link 0E 04 (address 0x040E, the byte after the record), number 0A 00
    and body 99 22 48 45 4C 4C 4F 22 00; the record of line 20 with link
    16 04, number 14 00 and body 89 31 30 00; and 00 00.  The space
    between a keyword and what follows it is skipped, so no 20 byte
    follows 99 or 89. *)
Theorem scenario_image :
  let line10 := str "PRINT " ++ dquote :: str "HELLO" ++ [dquote] in
  let line20 := str "GOTO 10" in
  tokenize_line line10 = Some [0x99; 0x22; 0x48; 0x45; 0x4C; 0x4C; 0x4F; 0x22]%Z /\
  tokenize_line line20 = Some [0x89; 0x31; 0x30]%Z /\
  create_prg [(10%Z, line10); (20%Z, line20)] default_load_addr
    = Some ([0x01; 0x04]
            ++ line_record 0x040E 10 [0x99; 0x22; 0x48; 0x45; 0x4C; 0x4C; 0x4F; 0x22]
            ++ line_record 0x0416 20 [0x89; 0x31; 0x30]
            ++ [0x00; 0x00])%Z /\
  line_record 0x040E 10 [0x99; 0x22; 0x48; 0x45; 0x4C; 0x4C; 0x4F; 0x22]%Z
    = [0x0E; 0x04; 0x0A; 0x00; 0x99; 0x22; 0x48; 0x45; 0x4C; 0x4C; 0x4F; 0x22; 0x00]%Z /\
  address_of default_load_addr (2 + 13) = 0x040E%Z.
Proof. vm_compute. repeat split; reflexivity. Qed.

(** The image of the scenario does not contain the record the specification
    describes for line 10, whatever its two link bytes and whatever
    follows it: there is no space byte 20 behind the token 99. *)
Lemma scenario_image_counterexample :
  ~ exists link_lo link_hi rest,
      create_prg [(10%Z, str "PRINT " ++ dquote :: str "HELLO" ++ [dquote]);
                  (20%Z, str "GOTO 10")] default_load_addr
      = Some ([0x01; 0x04] ++ [link_lo; link_hi] ++ [0x0A; 0x00]
              ++ [0x99; 0x20; 0x22; 0x48; 0x45; 0x4C; 0x4C; 0x4F; 0x22; 0x00]
              ++ rest)%Z.
Proof. intros (lo & hi & rest & H). vm_compute in H. discriminate H. Qed.

(** ** C8: an empty program *)

(** C8, as the code has it. The usage error for an empty list of lines is
    raised by the command-line block, which prints its message and leaves
    with status 1 without building or writing an image, and only for the
    empty list; [create_prg] itself accepts the empty sequence and returns
    the four bytes load address, 00 00. *)
Theorem empty_input_handling :
  main_block [] = Exit "No BASIC lines found in input file" 1 /\
  (forall line rest message status, main_block (line :: rest) <> Exit message status) /\
  (forall load_addr, (0 <= load_addr <= 65535)%Z ->
     create_prg [] load_addr = Some (le16 load_addr ++ [0; 0]%Z)).
Proof.
  split; [reflexivity|]. split.
  - intros line rest message status. unfold main_block.
    by destruct (create_prg (line :: rest) default_load_addr).
  - intros load_addr Hla. unfold create_prg, pack_H.
    rewrite bool_decide_eq_true_2 by done. reflexivity.
Qed.

Lemma empty_input_handling_witness :
  create_prg [] default_load_addr = Some (le16 default_load_addr ++ [0; 0]%Z).
Proof.
  apply (proj2 (proj2 empty_input_handling) default_load_addr).
  unfold default_load_addr. lia.
Defined.

(** [create_prg] on the empty sequence is not an error: it returns a
    four-byte image. *)
Lemma empty_input_counterexample :
  create_prg [] default_load_addr = Some [0x01; 0x04; 0x00; 0x00]%Z /\
  create_prg [] default_load_addr <> None.
Proof. split; [vm_compute; reflexivity | vm_compute; discriminate]. Qed.

(** ** Uppercasing *)

Lemma upper_char_cases c :
  (exists n, upper_char c = [n]) \/ upper_char c = [0x53; 0x53]%N.
Proof. unfold upper_char. repeat case_match; eauto. Qed.

Lemma upper_app s1 s2 : upper (s1 ++ s2) = upper s1 ++ upper s2.
Proof. unfold upper. apply flat_map_app. Qed.

(** A text whose uppercase has no double S is uppercased character by
    character. *)
Lemma upper_pointwise s : forall u,
  upper s = u -> no_double_S u = true ->
  Forall2 (fun c n => upper_char c = [n]) s u.
Proof.
  induction s as [|c s IH]; intros u Hu Hss.
  - simpl in Hu. subst. constructor.
  - change (upper (c :: s)) with (upper_char c ++ upper s) in Hu.
    destruct (upper_char_cases c) as [[n Hn]|Hn]; rewrite Hn in Hu; simpl in Hu.
    + subst u. constructor; [done|]. apply IH; [done|].
      simpl in Hss. destruct (upper s); [done|]. by apply andb_prop in Hss as [_ ?].
    + subst u. simpl in Hss. done.
Qed.

Lemma length_spelling name : length (spelling name) = String.length name.
Proof.
  unfold spelling. rewrite length_map.
  induction name as [|c name IH]; simpl; [done | by rewrite IH].
Qed.

Lemma length_str name : length (str name) = String.length name.
Proof. unfold str. induction name as [|c name IH]; simpl; [done | by rewrite IH]. Qed.

(** ** C5: a bare keyword *)

Lemma table_spellings_plain :
  Forall (fun x => upper (str x.1) = spelling x.1 /\
                   no_double_S (spelling x.1) = true /\
                   head (spelling x.1) <> Some (cp dquote) /\
                   match_tokens (str x.1) 0 SORTED_TOKENS = Some x) TOKENS.
Proof. apply (bool_decide_unpack _). vm_compute. exact I. Qed.

(** For a text that is, uppercased, the spelling [k], a candidate at least
    as long as [k] is accepted at position 0 exactly when it is [k]. *)
Lemma accepts_bare line_text k name :
  upper line_text = spelling k -> length line_text = String.length k ->
  String.length k <= String.length name ->
  accepts line_text 0 name = bool_decide (spelling k = spelling name).
Proof.
  intros Hu Hlen Hle. unfold accepts, slice_matches, boundary_rejects.
  rewrite drop_0, take_ge by lia. rewrite Hu.
  rewrite (proj2 (lookup_ge_None line_text (0 + String.length name))) by lia.
  by rewrite andb_false_r, andb_true_r.
Qed.

(** C5. For every entry [(k, v)] of the table and every text whose
    uppercase form is the spelling [k] (the spelling itself, or any mix of
    upper and lower case letters), [tokenize_line] returns the single byte
    [v]. *)
Theorem bare_keyword_tokenizes k v line_text :
  (k, v) ∈ TOKENS -> upper line_text = spelling k ->
  tokenize_line line_text = Some [v].
Proof.
  intros Hin Hu.
  pose proof (proj1 (Forall_forall _ _) table_spellings_plain _ Hin)
    as (Hk & Hss & Hq & Hm). cbn [fst snd] in Hk, Hss, Hq, Hm.
  assert (Hlen : length line_text = String.length k).
  { rewrite <- length_spelling.
    eapply Forall2_length, upper_pointwise; [exact Hu | exact Hss]. }
  (* the candidate loop finds [k], as it does on the spelling itself *)
  assert (Hmatch : match_tokens line_text 0 SORTED_TOKENS = Some (k, v)).
  { apply match_tokens_Some in Hm as (l1 & l2 & Heq & Hacc & Hl1).
    apply match_tokens_Some. exists l1, l2. split; [done|].
    cbn [fst snd] in Hacc |- *.
    rewrite (accepts_bare (str k) k) in Hacc by (rewrite ?length_str; done).
    rewrite (accepts_bare line_text k) by done.
    split; [done|].
    rewrite Forall_forall in Hl1 |- *. intros y Hy. specialize (Hl1 y Hy).
    assert (Hlong : String.length k <= String.length y.1).
    { pose proof SORTED_TOKENS_sorted as Hs. rewrite Heq in Hs.
      assert (Hb : tried_before y (k, v))
        by (eapply StronglySorted_app_1_elem_of; [done | done | left]).
      destruct Hb as [Hb|[Hb _]]; cbn [fst snd] in Hb; lia. }
    rewrite (accepts_bare (str k) k) in Hl1 by (rewrite ?length_str; done).
    by rewrite (accepts_bare line_text k). }
  assert (Hpos : 0 < String.length k).
  { apply match_tokens_elem in Hmatch as [Hel _].
    exact (proj1 (Forall_forall _ _) spellings_nonempty _ Hel). }
  destruct line_text as [|char rest]; [cbn [length] in Hlen; lia|].
  assert (Hchar : char <> dquote).
  { intros ->. apply Hq. rewrite <- Hu. reflexivity. }
  unfold tokenize_line.
  change (length (char :: rest)) with (S (length rest)).
  rewrite loop_step by (cbn [i init_state length]; lia).
  rewrite (step_matched _ _ char k v) by done.
  rewrite loop_done; [reflexivity|].
  cbn [i init_state length] in *. unfold skip_spaces. lia.
Qed.

(** The keyword PRINT written in lower case. *)
Lemma bare_keyword_tokenizes_witness :
  tokenize_line (str "print") = Some [0x99%Z].
Proof.
  apply (bare_keyword_tokenizes "PRINT" 0x99%Z (str "print")).
  - apply (bool_decide_unpack _). vm_compute. exact I.
  - vm_compute. reflexivity.
Defined.

(** ** Matching depends on the text from the scan position on *)

Lemma accepts_shift pre suf j name :
  accepts (pre ++ suf) (length pre + j) name = accepts suf j name.
Proof.
  unfold accepts, slice_matches, boundary_rejects.
  rewrite drop_app_add. rewrite <- Nat.add_assoc, lookup_app_r by lia.
  by replace (length pre + (j + String.length name) - length pre)
    with (j + String.length name) by lia.
Qed.

Lemma match_tokens_shift pre suf j l :
  match_tokens (pre ++ suf) (length pre + j) l = match_tokens suf j l.
Proof.
  induction l as [|x l IH]; [done|].
  by rewrite !match_tokens_cons, accepts_shift, IH.
Qed.

Lemma no_accept_local_sound a b p name :
  no_accept_local a p name = true -> accepts (a ++ b) p name = false.
Proof.
  unfold no_accept_local. case_bool_decide as Hin; intros H.
  - apply negb_true_iff in H. rewrite <- H.
    unfold accepts, slice_matches, boundary_rejects.
    rewrite drop_app_le by lia. rewrite take_app_le by (rewrite length_drop; lia).
    by rewrite lookup_app_l by lia.
  - apply negb_true_iff, bool_decide_eq_false_1 in H.
    unfold accepts, slice_matches. apply andb_false_intro1, bool_decide_eq_false_2.
    intros Heq. apply H. rewrite <- Heq.
    rewrite drop_app, take_app, upper_app. by eexists.
Qed.


Lemma all_ascii_complete c : c ∈ all_ascii.
Proof.
  destruct c as [[] [] [] [] [] [] [] []];
    apply (bool_decide_unpack _); vm_compute; exact I.
Qed.



(** ** C3: a word keyword followed by an identifier character *)

Lemma no_accept_before_sound a ok p name c s' :
  no_accept_before a ok p name = true -> ok c = true ->
  accepts (a ++ c :: s') p name = false.
Proof.
  unfold no_accept_before. intros H Hc.
  destruct (no_accept_local a p name) eqn:Ha; [by apply no_accept_local_sound|].
  rewrite forallb_forall in H.
  specialize (H c (proj1 (list_elem_of_In _ _) (all_ascii_complete c))).
  rewrite Hc in H. rewrite (cons_middle c a s'), app_assoc.
  by apply no_accept_local_sound.
Qed.









(** * Further properties of the tokenizer *)

Lemma ord_range c : (0 <= ord c <= 255)%Z.
Proof. destruct c as [[] [] [] [] [] [] [] []]; vm_compute; split; discriminate. Qed.

Lemma table_codes_range : Forall (fun x => (128 <= x.2 <= 255)%Z) TOKENS.
Proof. apply (bool_decide_unpack _). vm_compute. exact I. Qed.

Lemma step_byte line_text st :
  i st < length line_text ->
  exists b, result (step line_text st) = result st ++ [b] /\
            byte_of_text_or_table line_text b.
Proof.
  intros Hlt. destruct (lookup_lt_is_Some_2 _ _ Hlt) as [char Hc].
  assert (Hchar : byte_of_text_or_table line_text (ord char)).
  { left. exists char. split; [by eapply list_elem_of_lookup_2 | done]. }
  unfold step. rewrite Hc.
  destruct (Ascii.eqb char dquote); [simpl; eauto |].
  destruct (in_quote st || in_rem st); [simpl; eauto |].
  destruct (match_tokens line_text (i st) SORTED_TOKENS) as [[n v]|] eqn:Hm;
    [| simpl; eauto].
  simpl. exists v. split; [done|]. right. exists n.
  apply match_tokens_elem in Hm as [Hin _].
  exact (proj1 (Forall_forall _ _) sorted_tokens_in_table _ Hin).
Qed.

Lemma tokenized_bytes line_text out :
  tokenize_line line_text = Some out ->
  Forall (fun b => byte_of_text_or_table line_text b /\ (0 <= b <= 255)%Z) out.
Proof.
  unfold tokenize_line. intros H.
  destruct (loop (length line_text) line_text init_state) as [fin|] eqn:Hl; [|done].
  injection H as <-. revert Hl.
  apply (loop_invariant
           (fun s => Forall (fun b => byte_of_text_or_table line_text b
                                      /\ (0 <= b <= 255)%Z) (result s))).
  - intros s Hs Hlt. destruct (step_byte line_text s Hlt) as (b & -> & Hb).
    apply Forall_app. split; [done|]. constructor; [|constructor].
    split; [done|]. destruct Hb as [(c & _ & ->)|(k & Hk)]; [apply ord_range|].
    pose proof (proj1 (Forall_forall _ _) table_codes_range _ Hk) as Hr.
    simpl in Hr. lia.
  - constructor.
Qed.

(** X1. Every byte [tokenize_line] returns is the code of a character of the
    text or a code of the keyword table, hence a value from 0 to 255. *)
Theorem tokenize_line_bytes line_text out :
  tokenize_line line_text = Some out ->
  Forall (fun b => byte_of_text_or_table line_text b /\ (0 <= b <= 255)%Z) out.
Proof. apply tokenized_bytes. Qed.

Lemma tokenize_line_bytes_witness :
  Forall (fun b => byte_of_text_or_table (str "GOTO 10") b /\ (0 <= b <= 255)%Z)
    [0x89; 0x31; 0x30]%Z.
Proof.
  apply (tokenize_line_bytes (str "GOTO 10")). vm_compute. reflexivity.
Defined.

(** X2. A text without the character of code 0 is tokenized to bytes without
    the value 0: the zero that ends a record is the first one behind the
    line number. *)
Theorem tokenize_line_no_zero_byte line_text out :
  ascii_of_nat 0 ∉ line_text ->
  tokenize_line line_text = Some out -> 0%Z ∉ out.
Proof.
  intros Hnul H Hin. apply tokenized_bytes in H.
  destruct (proj1 (Forall_forall _ _) H _ Hin) as [[(c & Hc & Hord)|(k & Hk)] _].
  - apply Hnul. replace (ascii_of_nat 0) with c; [done|].
    unfold ord in Hord. apply (f_equal Z.to_N) in Hord. rewrite N2Z.id in Hord.
    apply (f_equal ascii_of_N) in Hord. rewrite ascii_N_embedding in Hord.
    rewrite <- Hord. reflexivity.
  - pose proof (proj1 (Forall_forall _ _) table_codes_range _ Hk) as Hr.
    simpl in Hr. lia.
Qed.

Lemma tokenize_line_no_zero_byte_witness : 0%Z ∉ [0x89; 0x31; 0x30]%Z.
Proof.
  apply (tokenize_line_no_zero_byte (str "GOTO 10")).
  - apply (bool_decide_unpack _). vm_compute. exact I.
  - vm_compute. reflexivity.
Defined.

Lemma tokenized_nil_iff line_text :
  tokenize_line line_text = Some [] <-> line_text = [].
Proof.
  split; [| intros ->; reflexivity].
  intros H. destruct line_text as [|c rest]; [done|]. exfalso.
  unfold tokenize_line in H.
  destruct (loop (length (c :: rest)) (c :: rest) init_state) as [fin|] eqn:Hl; [|done].
  injection H as H.
  apply loop_Some_inv in Hl as [[Hge _]|[Hlt (f & _ & Hl)]]; [simpl in Hge; lia|].
  destruct (step_progress _ _ Hlt) as [_ [b Hb]].
  apply loop_result_prefix in Hl as [k Hk]. rewrite Hb, H in Hk. done.
Qed.

(** X3. Only the empty text is tokenized to the empty byte sequence. *)
Theorem tokenize_line_empty_iff line_text :
  tokenize_line line_text = Some [] <-> line_text = [].
Proof. apply tokenized_nil_iff. Qed.

Lemma upper_char_nonempty c : upper_char c <> [].
Proof. by destruct (upper_char_cases c) as [[n ->]| ->]. Qed.

(** A matching span begins with a character whose uppercase begins like
    the spelling. *)
Lemma slice_first line_text p name :
  slice_matches line_text p name = true -> 0 < String.length name ->
  exists c, line_text !! p = Some c /\ head (upper_char c) = head (spelling name).
Proof.
  unfold slice_matches. intros H Hn. apply bool_decide_eq_true_1 in H.
  rewrite <- (Nat.add_0_r p), <- lookup_drop.
  destruct (drop p line_text) as [|c l].
  - rewrite take_nil in H. simpl in H.
    apply (f_equal length) in H. rewrite length_spelling in H. simpl in H. lia.
  - exists c. split; [done|].
    destruct (String.length name) as [|m]; [lia|]. simpl in H. rewrite <- H.
    pose proof (upper_char_nonempty c). by destruct (upper_char c).
Qed.

Lemma match_tokens_unique_accept line_text p l x :
  x ∈ l -> accepts line_text p x.1 = true ->
  (forall y, y ∈ l -> accepts line_text p y.1 = true -> y = x) ->
  match_tokens line_text p l = Some x.
Proof.
  induction l as [|y l IH]; intros Hin Hacc Huniq; [by apply elem_of_nil in Hin|].
  rewrite match_tokens_cons. destruct (accepts line_text p y.1) eqn:Hy.
  - f_equal. apply Huniq; [left | done].
  - apply IH; [| done | intros z Hz; apply Huniq; by right].
    apply elem_of_cons in Hin as [->|Hin]; [congruence | done].
Qed.

Lemma table_in_sorted_tokens : Forall (fun x => x ∈ SORTED_TOKENS) TOKENS.
Proof. apply (bool_decide_unpack _). vm_compute. exact I. Qed.

(** No other spelling begins with the first character of a symbol
    keyword. *)
Lemma symbol_heads_unique :
  Forall (fun x => first_isalpha x.1 = false ->
            Forall (fun y => head (spelling y.1) = head (spelling x.1) -> y = x)
              SORTED_TOKENS) TOKENS.
Proof. apply (bool_decide_unpack _). vm_compute. exact I. Qed.

(** X4. A symbol keyword (an operator) is tokenized wherever its spelling
    stands outside strings and comments, whatever comes before or after
    it: the iteration appends its code and skips the spaces behind it. *)
Theorem symbol_keyword_always_tokenized k v line_text st :
  (k, v) ∈ TOKENS -> first_isalpha k = false ->
  in_quote st = false -> in_rem st = false ->
  slice_matches line_text (i st) k = true ->
  step line_text st = after_match line_text st k v.
Proof.
  intros Hin Hsym Hq Hr Hs.
  pose proof (proj1 (Forall_forall _ _) table_in_sorted_tokens _ Hin) as Hsorted.
  pose proof (proj1 (Forall_forall _ _) spellings_nonempty _ Hsorted) as Hlen.
  pose proof (proj1 (Forall_forall _ _) table_spellings_plain _ Hin) as (_ & _ & Hnq & _).
  cbn [fst] in Hlen, Hnq.
  destruct (slice_first _ _ _ Hs Hlen) as (c & Hc & Hhead).
  assert (Hcq : c <> dquote) by (intros ->; apply Hnq; by rewrite <- Hhead).
  assert (Hm : match_tokens line_text (i st) SORTED_TOKENS = Some (k, v)).
  { apply match_tokens_unique_accept; [done | |].
    - unfold accepts, boundary_rejects. cbn [fst]. by rewrite Hs, Hsym.
    - intros y Hy Hacc. apply andb_prop in Hacc as [Hsy _].
      pose proof (proj1 (Forall_forall _ _) spellings_nonempty _ Hy) as Hleny.
      destruct (slice_first _ _ _ Hsy Hleny) as (c' & Hc' & Hhead').
      assert (c' = c) as -> by congruence.
      pose proof (proj1 (Forall_forall _ _) symbol_heads_unique _ Hin Hsym) as Hu.
      apply (proj1 (Forall_forall _ _) Hu y Hy). cbn [fst]. congruence. }
  by rewrite (step_matched _ _ c k v).
Qed.

(** The minus sign of [-5]. *)
Lemma symbol_keyword_always_tokenized_witness :
  step (str "-5") init_state = after_match (str "-5") init_state "-" 0xAB%Z.
Proof.
  apply symbol_keyword_always_tokenized.
  - apply (bool_decide_unpack _). vm_compute. exact I.
  - reflexivity.
  - reflexivity.
  - reflexivity.
  - vm_compute. reflexivity.
Defined.



(** * Further properties of the builder *)

Lemma tokenized_length line_text out :
  tokenize_line line_text = Some out -> length out <= length line_text.
Proof.
  unfold tokenize_line. intros H.
  destruct (loop (length line_text) line_text init_state) as [fin|] eqn:Hl; [|done].
  injection H as <-.
  cut (length (result fin) <= i fin /\ length (result fin) <= length line_text); [tauto|].
  revert Hl.
  apply (loop_invariant
           (fun s => length (result s) <= i s /\ length (result s) <= length line_text)).
  - intros s [H1 H2] Hlt.
    destruct (step_progress line_text s Hlt) as [Hi [b ->]].
    rewrite length_app. simpl. lia.
  - simpl. lia.
Qed.

Lemma length_line_records_size load_addr tls : forall offset,
  length (line_records load_addr offset tls) = records_size tls.
Proof.
  induction tls as [|tl tls IH]; intros offset; [done|].
  cbn [line_records records_size]. rewrite length_app, length_line_record, IH. lia.
Qed.

Lemma length_prg_layout load_addr tls :
  length (prg_layout load_addr tls) = 4 + records_size tls.
Proof.
  unfold prg_layout. rewrite !length_app, length_line_records_size. simpl. lia.
Qed.

Lemma records_size_bounds basic_lines tls :
  tokenized_as basic_lines tls ->
  5 * length basic_lines <= records_size tls <= source_size basic_lines.
Proof.
  induction 1 as [|line tl rest tls [_ Ht] _ IH]; simpl; [lia|].
  apply tokenized_length in Ht. lia.
Qed.

(** X9. The size of the image: four bytes for the load address and the
    sentinel and, for every line, five bytes and its tokenized statement;
    so at least five and at most five plus the length of its text per
    line. *)
Theorem image_length basic_lines load_addr img tls :
  tokenized_as basic_lines tls ->
  create_prg basic_lines load_addr = Some img ->
  length img = 4 + records_size tls /\
  4 + 5 * length basic_lines <= length img <= 4 + source_size basic_lines.
Proof.
  intros Htls H. apply create_prg_Some in H as (_ & tls' & Htls' & -> & _).
  rewrite <- (tokenized_as_unique _ _ _ Htls Htls'), length_prg_layout.
  pose proof (records_size_bounds _ _ Htls). lia.
Qed.

Lemma image_length_witness :
  length [1; 4; 6; 4; 5; 0; 0; 0; 0]%Z = 4 + records_size [(5%Z, [])] /\
  4 + 5 * length [(5%Z, @nil ascii)] <= length [1; 4; 6; 4; 5; 0; 0; 0; 0]%Z
    <= 4 + source_size [(5%Z, [])].
Proof.
  apply (image_length [(5%Z, [])] default_load_addr).
  - constructor; [split; reflexivity | constructor].
  - vm_compute. reflexivity.
Defined.

Lemma create_prg_is_Some basic_lines load_addr tls :
  tokenized_as basic_lines tls ->
  is_Some (create_prg basic_lines load_addr) <->
  (0 <= load_addr)%Z /\
  Forall (fun line => (0 <= line.1 <= 65535)%Z) basic_lines /\
  (load_addr + Z.of_nat (records_size tls) <= 65535)%Z.
Proof.
  intros Htls. split.
  - intros [img H]. apply create_prg_Some in H as (Hla & tls' & Htls' & -> & Hnums & Hend).
    rewrite <- (tokenized_as_unique _ _ _ Htls Htls'), length_prg_layout in Hend.
    split; [lia|]. split; [done | lia].
  - intros (Hla & Hnums & Hend). eexists.
    apply (create_prg_succeeds _ _ tls); [done | done | | done].
    rewrite length_prg_layout. lia.
Qed.

(** X10. [create_prg] returns an image exactly when the load address is not
    negative, every line number lies in 0..65535, and the load address
    plus the size of all records is at most 65535; otherwise
    [struct.pack] fails and there is no image. *)
Theorem create_prg_success_criterion basic_lines load_addr tls :
  tokenized_as basic_lines tls ->
  (is_Some (create_prg basic_lines load_addr) <->
   (0 <= load_addr)%Z /\
   Forall (fun line => (0 <= line.1 <= 65535)%Z) basic_lines /\
   (load_addr + Z.of_nat (records_size tls) <= 65535)%Z) /\
  (create_prg basic_lines load_addr = None <->
   (load_addr < 0)%Z \/
   Exists (fun line => ~ (0 <= line.1 <= 65535)%Z) basic_lines \/
   (65535 < load_addr + Z.of_nat (records_size tls))%Z).
Proof.
  intros Htls. pose proof (create_prg_is_Some basic_lines load_addr tls Htls) as Hs.
  split; [done|]. rewrite eq_None_not_Some, Hs. split.
  - intros Hn. destruct (decide (load_addr < 0)%Z); [by left|]. right.
    destruct (decide (Forall (fun line => (0 <= line.1 <= 65535)%Z) basic_lines))
      as [HF|HF].
    + right. apply Z.nle_gt. intros Hle. apply Hn. split; [lia | done].
    + left. apply not_Forall_Exists in HF; [exact HF | intros x; apply _].
  - intros [H|[H|H]] (Hla & HF & Hend); [lia | | lia].
    apply Exists_exists in H as (line & Hin & Hline).
    exact (Hline (proj1 (Forall_forall _ _) HF line Hin)).
Qed.

Lemma create_prg_success_criterion_witness :
  create_prg [((-5)%Z, str "END")] default_load_addr = None.
Proof.
  apply (proj2 (create_prg_success_criterion [((-5)%Z, str "END")] default_load_addr
                  [((-5)%Z, [0x80%Z])]
                  ltac:(constructor; [split; [reflexivity | vm_compute; reflexivity]
                                     | constructor]))).
  right. left. constructor. simpl. lia.
Defined.

(** X11. A size test on the source alone.  When the texts of the lines
    are tokenized (no character makes [tokenize_line] fail), the load
    address is not negative, the line numbers lie in 0..65535 and the
    load address plus five bytes per line plus the lengths of the texts
    stays within 65535, [create_prg] returns the image laid out from the
    tokenized lines. *)
Theorem create_prg_fits basic_lines load_addr tls :
  tokenized_as basic_lines tls ->
  (0 <= load_addr)%Z ->
  Forall (fun line => (0 <= line.1 <= 65535)%Z) basic_lines ->
  (load_addr + Z.of_nat (source_size basic_lines) <= 65535)%Z ->
  create_prg basic_lines load_addr = Some (prg_layout load_addr tls).
Proof.
  intros Htls Hla Hnums Hsize.
  apply create_prg_succeeds; [done | done | | done].
  pose proof (records_size_bounds _ _ Htls). rewrite length_prg_layout. lia.
Qed.

Lemma create_prg_fits_witness :
  create_prg [(10%Z, str "GOTO 10")] default_load_addr
  = Some (prg_layout default_load_addr [(10%Z, [0x89; 0x31; 0x30]%Z)]).
Proof.
  apply create_prg_fits.
  - constructor; [split; [reflexivity | vm_compute; reflexivity] | constructor].
  - unfold default_load_addr. lia.
  - constructor; [simpl; lia | constructor].
  - vm_compute. discriminate.
Defined.

Lemma records_size_app t1 t2 :
  records_size (t1 ++ t2) = records_size t1 + records_size t2.
Proof. induction t1 as [|tl t1 IH]; simpl; [done | rewrite IH; lia]. Qed.

Lemma line_records_app load_addr t1 t2 : forall offset,
  line_records load_addr offset (t1 ++ t2)
  = line_records load_addr offset t1
    ++ line_records load_addr (offset + records_size t1) t2.
Proof.
  induction t1 as [|tl t1 IH]; intros offset.
  - simpl. by rewrite Nat.add_0_r.
  - cbn [app line_records records_size]. rewrite IH, <- app_assoc.
    do 3 f_equal. lia.
Qed.

(** X12. Lines added at the end leave the records of the earlier lines as they
    are: the image of the first lines, without its two sentinel bytes, is
    the beginning of the image of all lines. *)
Theorem create_prg_app_prefix lines1 lines2 load_addr img :
  create_prg (lines1 ++ lines2) load_addr = Some img ->
  exists img1, create_prg lines1 load_addr = Some img1 /\
    2 <= length img1 /\
    img1 = take (length img1 - 2) img ++ [0; 0]%Z.
Proof.
  intros H. apply create_prg_Some in H as (Hla & tls & Htls & -> & Hnums & Hend).
  apply Forall2_app_inv_l in Htls as (t1 & t2 & Ht1 & Ht2 & ->).
  apply Forall_app in Hnums as [Hnums _].
  rewrite length_prg_layout, records_size_app in Hend.
  exists (prg_layout load_addr t1).
  split; [| split].
  - apply create_prg_succeeds; [done | lia | | done].
    rewrite length_prg_layout. lia.
  - rewrite length_prg_layout. lia.
  - assert (Hl : length (prg_layout load_addr t1) - 2
                 = length (le16 load_addr ++ line_records load_addr 2 t1)).
    { rewrite length_prg_layout, length_app, length_line_records_size. simpl. lia. }
    rewrite Hl. unfold prg_layout at 2. rewrite line_records_app.
    rewrite <- app_assoc, (app_assoc (le16 load_addr)), take_app_length.
    unfold prg_layout. by rewrite <- app_assoc.
Qed.

Lemma create_prg_app_prefix_witness :
  exists img1, create_prg [(10%Z, str "REM")] default_load_addr = Some img1 /\
    2 <= length img1 /\
    img1 = take (length img1 - 2)
             [1; 4; 7; 4; 10; 0; 143; 0; 13; 4; 20; 0; 128; 0; 0; 0]%Z ++ [0; 0]%Z.
Proof.
  apply (create_prg_app_prefix [(10%Z, str "REM")] [(20%Z, str "END")]).
  vm_compute. reflexivity.
Defined.

(** ** Reading an image back *)

Lemma decode_layout load_addr tls : forall pre,
  (0 <= load_addr)%Z -> 2 <= length pre ->
  decode_records (length tls)
    (pre ++ line_records load_addr (length pre) tls ++ [0; 0]%Z) load_addr (length pre)
  = Some tls.
Proof.
  induction tls as [|tl tls IH]; intros pre Hla Hpre.
  - cbn [line_records app length decode_records].
    assert (Hr : read_u16 (pre ++ [0; 0]%Z) (length pre) = Some 0%Z)
      by exact (read_u16_le16 pre 0 []).
    rewrite Hr. reflexivity.
  - destruct (chain_step load_addr tl tls pre) as (Hread & Hin & Himg & Hlen).
    set (img := pre ++ line_records load_addr (length pre) (tl :: tls) ++ [0; 0]%Z) in *.
    set (next := length pre + 4 + length tl.2 + 1) in *.
    assert (Hlink : address_of load_addr next <> 0%Z) by (unfold address_of; lia).
    assert (Hoff : offset_of load_addr (address_of load_addr next) = next)
      by (unfold offset_of, address_of; lia).
    assert (Hnum : read_u16 img (length pre + 2) = Some tl.1).
    { subst img. cbn [line_records]. fold next. unfold line_record.
      rewrite <- !app_assoc, (app_assoc pre).
      replace (length pre + 2) with (length (pre ++ le16 (address_of load_addr next)))
        by (rewrite length_app; reflexivity).
      apply read_u16_le16. }
    assert (Hbody : take (next - length pre - 5) (drop (length pre + 4) img) = tl.2).
    { subst img. cbn [line_records]. fold next. unfold line_record.
      rewrite <- !app_assoc, (app_assoc pre), (app_assoc (pre ++ _)).
      replace (length pre + 4)
        with (length ((pre ++ le16 (address_of load_addr next)) ++ le16 tl.1))
        by (rewrite !length_app; simpl; lia).
      rewrite drop_app_length.
      replace (next - length pre - 5) with (length tl.2) by lia.
      apply take_app_length. }
    pose proof (IH (pre ++ line_record (address_of load_addr next) tl.1 tl.2) Hla) as IH'.
    rewrite Hlen, <- Himg in IH'. specialize (IH' ltac:(lia)).
    cbn [length decode_records]. rewrite Hread. simpl.
    rewrite bool_decide_eq_false_2 by done. rewrite Hoff.
    rewrite bool_decide_eq_true_2 by (split; [lia | done]).
    rewrite Hnum. simpl. rewrite IH'. simpl. rewrite Hbody. by destruct tl.
Qed.

Lemma decode_records_more_hops img load_addr : forall hops hops' offset r,
  decode_records hops img load_addr offset = Some r -> hops <= hops' ->
  decode_records hops' img load_addr offset = Some r.
Proof.
  induction hops as [|hops IH]; intros hops' offset r H Hle.
  - destruct hops'; [done|]. simpl in H |- *.
    destruct (read_u16 img offset) as [link|]; [|done]. simpl in H |- *.
    by case_bool_decide.
  - destruct hops' as [|hops']; [lia|]. simpl in H |- *.
    destruct (read_u16 img offset) as [link|]; [|done]. simpl in H |- *.
    case_bool_decide; [done|]. case_bool_decide; [|done].
    destruct (read_u16 img (offset + 2)) as [n|]; [|done]. simpl in H |- *.
    destruct (decode_records hops img load_addr (offset_of load_addr link))
      as [rest|] eqn:Hrest; [|done].
    rewrite (IH hops' _ rest Hrest) by lia. done.
Qed.

Lemma decode_image basic_lines load_addr img tls :
  tokenized_as basic_lines tls ->
  create_prg basic_lines load_addr = Some img ->
  read_u16 img 0 = Some load_addr /\
  decode_records (length basic_lines) img load_addr 2 = Some tls.
Proof.
  intros Htls H. apply create_prg_Some in H as (Hla & tls' & Htls' & -> & _).
  rewrite <- (tokenized_as_unique _ _ _ Htls Htls').
  split; [exact (read_u16_le16 [] load_addr _) |].
  rewrite <- (tokenized_as_length _ _ Htls).
  apply (decode_layout load_addr tls (le16 load_addr)); [lia | simpl; lia].
Qed.

(** X13. An image returned by [create_prg] can be read back: its first two
    bytes give the load address, and walking the links from offset 2
    gives, record by record, the line numbers and the tokenized statements
    of the input lines, in input order. *)
Theorem decode_create_prg basic_lines load_addr img tls :
  tokenized_as basic_lines tls ->
  create_prg basic_lines load_addr = Some img ->
  read_u16 img 0 = Some load_addr /\
  decode_records (length basic_lines) img load_addr 2 = Some tls.
Proof. apply decode_image. Qed.

Lemma decode_create_prg_witness :
  read_u16 [1; 4; 7; 4; 10; 0; 143; 0; 13; 4; 20; 0; 128; 0; 0; 0]%Z 0
    = Some default_load_addr /\
  decode_records 2 [1; 4; 7; 4; 10; 0; 143; 0; 13; 4; 20; 0; 128; 0; 0; 0]%Z
    default_load_addr 2
    = Some [(10%Z, [143%Z]); (20%Z, [128%Z])].
Proof.
  apply (decode_create_prg [(10%Z, str "REM"); (20%Z, str "END")]).
  - repeat constructor.
  - vm_compute. reflexivity.
Defined.

(** X14. Two programs with the same image have the same load address and the
    same line numbers and tokenized statements: nothing of the tokenized
    program is lost in the image. *)
Theorem image_determines_program lines lines' load_addr load_addr' img tls tls' :
  tokenized_as lines tls -> tokenized_as lines' tls' ->
  create_prg lines load_addr = Some img ->
  create_prg lines' load_addr' = Some img ->
  load_addr = load_addr' /\ tls = tls'.
Proof.
  intros Htls Htls' H H'.
  destruct (decode_image _ _ _ _ Htls H) as [Hla Hd].
  destruct (decode_image _ _ _ _ Htls' H') as [Hla' Hd'].
  assert (load_addr = load_addr') as <- by congruence. split; [done|].
  apply (decode_records_more_hops _ _ _ (max (length lines) (length lines'))) in Hd;
    [|lia].
  apply (decode_records_more_hops _ _ _ (max (length lines) (length lines'))) in Hd';
    [|lia].
  congruence.
Qed.

Lemma image_determines_program_witness :
  default_load_addr = default_load_addr /\ [(10%Z, [143%Z])] = [(10%Z, [143%Z])].
Proof.
  apply (image_determines_program [(10%Z, str "REM")] [(10%Z, str "rem  ")]
           default_load_addr default_load_addr [1; 4; 7; 4; 10; 0; 143; 0; 0; 0]%Z).
  - repeat constructor.
  - repeat constructor.
  - vm_compute. reflexivity.
  - vm_compute. reflexivity.
Defined.

Lemma le16_bytes x :
  (0 <= x <= 65535)%Z -> Forall (fun b => (0 <= b <= 255)%Z) (le16 x).
Proof.
  intros Hx. unfold le16. repeat constructor.
  - apply Z.mod_pos_bound. lia.
  - pose proof (Z.mod_pos_bound x 256). lia.
  - apply Z.div_pos; lia.
  - apply Z.lt_succ_r, Z.div_lt_upper_bound; lia.
Qed.

Lemma line_records_bytes load_addr tls : forall offset,
  (0 <= load_addr)%Z -> 2 <= offset ->
  (load_addr + Z.of_nat offset + Z.of_nat (records_size tls) - 2 <= 65535)%Z ->
  Forall (fun tl => (0 <= tl.1 <= 65535)%Z
                    /\ Forall (fun b => (0 <= b <= 255)%Z) tl.2) tls ->
  Forall (fun b => (0 <= b <= 255)%Z) (line_records load_addr offset tls).
Proof.
  induction tls as [|tl tls IH]; intros offset Hla Hoff Hend Hall; [constructor|].
  apply Forall_cons in Hall as [[Hnum Hbody] Hall].
  cbn [line_records records_size] in Hend |- *.
  apply Forall_app. split.
  - unfold line_record. rewrite !Forall_app. split; [|split; [|split]].
    + apply le16_bytes. unfold address_of. lia.
    + by apply le16_bytes.
    + done.
    + repeat constructor; lia.
  - apply IH; [done | lia | lia | done].
Qed.

(** X15. Every element of an image returned by [create_prg] is a byte, a value
    from 0 to 255. *)
Theorem image_bytes_in_range basic_lines load_addr img :
  create_prg basic_lines load_addr = Some img ->
  Forall (fun b => (0 <= b <= 255)%Z) img.
Proof.
  intros H. apply create_prg_Some in H as (Hla & tls & Htls & -> & Hnums & Hend).
  rewrite length_prg_layout in Hend.
  unfold prg_layout. rewrite !Forall_app. split; [by apply le16_bytes|].
  split; [| repeat constructor; lia].
  apply line_records_bytes; [lia | lia | lia |].
  clear Hend. induction Htls as [|line tl rest tls [Hn Ht] _ IH]; [constructor|].
  apply Forall_cons in Hnums as [Hnum Hnums].
  constructor; [| by apply IH].
  split; [by rewrite Hn |].
  eapply Forall_impl; [exact (tokenized_bytes _ _ Ht) |]. by intros b [_ ?].
Qed.

Lemma image_bytes_in_range_witness :
  Forall (fun b => (0 <= b <= 255)%Z) [1; 4; 7; 4; 10; 0; 143; 0; 0; 0]%Z.
Proof.
  apply (image_bytes_in_range [(10%Z, str "REM")] default_load_addr).
  vm_compute. reflexivity.
Defined.

(** * Properties of the file parser *)

(** ** Lines of a file *)

Lemma translate_newlines_LF t : forall n, length t <= n ->
  exists s, forall t2,
    translate_newlines (t ++ LF :: t2) = s ++ LF :: translate_newlines t2.
Proof.
  intros n. revert t. induction n as [|n IH]; intros t Hn.
  - destruct t; [|simpl in Hn; lia]. exists []. intros t2. reflexivity.
  - destruct t as [|c t]; [exists []; intros t2; reflexivity|].
    simpl in Hn. destruct (Ascii.eqb_spec c CR) as [->|Hc].
    + destruct t as [|d t].
      * exists []. intros t2. reflexivity.
      * destruct (Ascii.eqb_spec d LF) as [->|Hd].
        -- destruct (IH t ltac:(simpl in Hn; lia)) as [s Hs].
           exists (LF :: s). intros t2. specialize (Hs t2).
           cbn -[translate_newlines] in Hs |- *.
           change (translate_newlines (CR :: LF :: t ++ LF :: t2))
             with (LF :: translate_newlines (t ++ LF :: t2)).
           by rewrite Hs.
        -- destruct (IH (d :: t) ltac:(simpl in Hn |- *; lia)) as [s Hs].
           exists (LF :: s). intros t2. specialize (Hs t2).
           assert (Hstep : translate_newlines (CR :: (d :: t) ++ LF :: t2)
                           = LF :: translate_newlines ((d :: t) ++ LF :: t2)).
           { simpl. by rewrite (proj2 (Ascii.eqb_neq d LF) Hd). }
           change ((CR :: d :: t) ++ LF :: t2) with (CR :: (d :: t) ++ LF :: t2).
           by rewrite Hstep, Hs.
    + destruct (IH t ltac:(lia)) as [s Hs].
      exists (c :: s). intros t2. specialize (Hs t2).
      simpl. rewrite (proj2 (Ascii.eqb_neq c CR) Hc). by rewrite Hs.
Qed.

Lemma translate_newlines_id t : CR ∉ t -> translate_newlines t = t.
Proof.
  induction t as [|c t IH]; intros Hcr; [done|].
  apply not_elem_of_cons in Hcr as [Hc Hcr]. simpl.
  rewrite (proj2 (Ascii.eqb_neq c CR)) by done. by rewrite IH.
Qed.

Lemma read_lines_LF s : forall cur s2,
  read_lines cur (s ++ LF :: s2) = read_lines cur (s ++ [LF]) ++ read_lines [] s2.
Proof.
  induction s as [|c s IH]; intros cur s2; simpl.
  - reflexivity.
  - destruct (Ascii.eqb c LF); [by rewrite IH | apply IH].
Qed.

Lemma read_lines_one s : forall cur,
  LF ∉ s -> read_lines cur (s ++ [LF]) = [cur ++ s ++ [LF]].
Proof.
  induction s as [|c s IH]; intros cur Hlf; simpl.
  - reflexivity.
  - apply not_elem_of_cons in Hlf as [Hc Hlf].
    rewrite (proj2 (Ascii.eqb_neq c LF)) by done.
    rewrite IH by done. by rewrite <- app_assoc.
Qed.

(** The lines of a text that continues behind a newline are the lines up
    to that newline followed by the lines behind it. *)
Lemma file_lines_LF t t2 :
  file_lines (t ++ LF :: t2) = file_lines (t ++ [LF]) ++ file_lines t2.
Proof.
  unfold file_lines.
  destruct (translate_newlines_LF t (length t) ltac:(lia)) as [s Hs].
  rewrite (Hs t2), (Hs []). apply read_lines_LF.
Qed.

Lemma file_lines_one body :
  LF ∉ body -> CR ∉ body -> file_lines (body ++ [LF]) = [body ++ [LF]].
Proof.
  intros Hlf Hcr. unfold file_lines. rewrite translate_newlines_id.
  - by rewrite read_lines_one.
  - intros Hin. apply elem_of_app in Hin as [Hin|Hin]; [done|].
    apply list_elem_of_singleton in Hin. discriminate.
Qed.

(** ** The loop over the lines *)

Lemma parse_line_entry max_str_digits lines line :
  parse_line max_str_digits lines line
  = lines ++ option_list (line_entry max_str_digits line).
Proof.
  unfold parse_line, line_entry, split_space_1.
  destruct (bool_decide (strip line = []) || startswith_hash (strip line));
    [by rewrite app_nil_r|].
  destruct (drop (length (before_space (strip line))) (strip line)) as [|c text];
    [by rewrite app_nil_r|].
  simpl. unfold id.
  destruct (py_int max_str_digits (before_space (strip line))); simpl;
    [reflexivity | by rewrite app_nil_r].
Qed.

Lemma fold_parse_line max_str_digits ls : forall lines,
  fold_left (parse_line max_str_digits) ls lines
  = lines ++ omap (line_entry max_str_digits) ls.
Proof.
  induction ls as [|l ls IH]; intros lines; simpl; [by rewrite app_nil_r|].
  rewrite IH, parse_line_entry, <- app_assoc.
  by destruct (line_entry max_str_digits l).
Qed.

Lemma parse_basic_file_entries max_str_digits text :
  parse_basic_file max_str_digits text
  = omap (line_entry max_str_digits) (file_lines text).
Proof. unfold parse_basic_file. by rewrite fold_parse_line. Qed.

Lemma parse_after_newline max_str_digits t t2 :
  parse_basic_file max_str_digits (t ++ LF :: t2)
  = parse_basic_file max_str_digits (t ++ [LF]) ++ parse_basic_file max_str_digits t2.
Proof. by rewrite !parse_basic_file_entries, file_lines_LF, omap_app. Qed.

(** X16. Parsing a text that continues behind a newline gives the entries of
    the part up to the newline followed by the entries of the part behind
    it: two files, the first ending in a newline, parse as their
    concatenation. *)
Theorem parse_basic_file_app max_str_digits t t2 :
  parse_basic_file max_str_digits ((t ++ [LF]) ++ t2)
  = parse_basic_file max_str_digits (t ++ [LF]) ++ parse_basic_file max_str_digits t2.
Proof. rewrite <- app_assoc. apply parse_after_newline. Qed.

(** ** strip and split *)

Lemma head_lstrip l c : head (lstrip l) = Some c -> isspace c = false.
Proof.
  induction l as [|a l IH]; [done|]. simpl.
  destruct (isspace a) eqn:Ha; [done|]. simpl. by intros [= <-].
Qed.

Lemma lstrip_app_space ws k : Forall (fun c => isspace c = true) ws ->
  lstrip (ws ++ k) = lstrip k.
Proof.
  induction 1 as [|c ws Hc _ IH]; [done|]. simpl. by rewrite Hc.
Qed.

Lemma lstrip_nonspace a l : isspace a = false -> lstrip (a :: l) = a :: l.
Proof. intros Ha. simpl. by rewrite Ha. Qed.

Lemma lstrip_snoc_nonspace y a : isspace a = false ->
  exists z, lstrip (y ++ [a]) = z ++ [a].
Proof.
  intros Ha. induction y as [|b y [z IH]].
  - exists []. simpl. by rewrite Ha.
  - simpl. destruct (isspace b); [by exists z|]. by exists (b :: y).
Qed.

Lemma last_strip l c : last (strip l) = Some c -> isspace c = false.
Proof. unfold strip. rewrite last_reverse. apply head_lstrip. Qed.

Lemma head_strip l c : head (strip l) = Some c -> isspace c = false.
Proof.
  unfold strip. destruct (lstrip l) as [|a r] eqn:Hl; [done|].
  assert (Ha : isspace a = false) by (apply (head_lstrip l); by rewrite Hl).
  rewrite reverse_cons.
  destruct (lstrip_snoc_nonspace (reverse r) a Ha) as [z ->].
  rewrite reverse_app. simpl. by intros [= <-].
Qed.

(** A text that neither begins nor ends with a blank is what [strip]
    leaves of it when blanks follow. *)
Lemma strip_core l ws a b :
  head l = Some a -> isspace a = false -> last l = Some b -> isspace b = false ->
  Forall (fun c => isspace c = true) ws ->
  strip (l ++ ws) = l.
Proof.
  intros Hhead Ha Hlast Hb Hws. unfold strip.
  destruct l as [|a' l]; [done|]. injection Hhead as ->.
  change ((a :: l) ++ ws) with (a :: l ++ ws). rewrite lstrip_nonspace by done.
  change (a :: l ++ ws) with ((a :: l) ++ ws). rewrite reverse_app.
  rewrite lstrip_app_space by (by apply Forall_reverse).
  rewrite <- head_reverse in Hlast.
  destruct (reverse (a :: l)) as [|b' r] eqn:Hr; [done|]. injection Hlast as ->.
  rewrite lstrip_nonspace by done. by rewrite <- Hr, reverse_involutive.
Qed.

Lemma strip_blank l : Forall (fun c => isspace c = true) l -> strip l = [].
Proof.
  intros Hl. unfold strip.
  rewrite <- (app_nil_r l), lstrip_app_space by done. reflexivity.
Qed.

Lemma strip_comment ws rest tail :
  Forall (fun c => isspace c = true) ws ->
  startswith_hash (strip (ws ++ hash :: rest ++ tail)) = true.
Proof.
  intros Hws. unfold strip. rewrite lstrip_app_space by done.
  rewrite lstrip_nonspace by reflexivity. rewrite reverse_cons.
  destruct (lstrip_snoc_nonspace (reverse (rest ++ tail)) hash) as [z ->]; [done|].
  by rewrite reverse_app.
Qed.

Lemma before_space_app w t : space ∉ w -> before_space (w ++ space :: t) = w.
Proof.
  induction w as [|c w IH]; intros Hw; [done|].
  apply not_elem_of_cons in Hw as [Hc Hw]. simpl.
  rewrite (proj2 (Ascii.eqb_neq c space)) by done. by rewrite IH.
Qed.

Lemma before_space_spec s :
  (space ∉ before_space s) /\
  (drop (length (before_space s)) s = [] \/
   exists t, s = before_space s ++ space :: t
             /\ drop (length (before_space s)) s = space :: t).
Proof.
  induction s as [|c s [IH1 IH2]]; simpl.
  - split; [apply not_elem_of_nil | by left].
  - destruct (Ascii.eqb_spec c space) as [->|Hc]; simpl.
    + split; [apply not_elem_of_nil |]. right. by exists s.
    + split; [by apply not_elem_of_cons|].
      destruct IH2 as [IH2|(t & Ht & Hd)]; [by left|].
      right. exists t. split; [by rewrite <- Ht | done].
Qed.

(** ** int *)

Lemma digit_facts c :
  is_decimal_digit c = true ->
  isspace c = false /\ int_space c = false /\ c <> space /\ c <> LF /\ c <> CR /\
  c <> plus_sign /\ c <> minus_sign /\ c <> underscore /\ c <> hash.
Proof.
  assert (Hall : Forall (fun c => is_decimal_digit c = true ->
     isspace c = false /\ int_space c = false /\ c <> space /\ c <> LF /\ c <> CR /\
     c <> plus_sign /\ c <> minus_sign /\ c <> underscore /\ c <> hash) all_ascii).
  { apply (bool_decide_unpack _). vm_compute. exact I. }
  exact (proj1 (Forall_forall _ _) Hall c (all_ascii_complete c)).
Qed.

Lemma scan_digits_all ds : forall prev n v,
  Forall (fun c => is_decimal_digit c = true) ds ->
  scan_digits ds prev n v
  = Some (match ds with [] => prev | _ :: _ => false end, n + length ds,
          fold_left (fun v c => (v * 10 + (ord c - 48))%Z) ds v, []).
Proof.
  induction ds as [|c ds IH]; intros prev n v Hds; simpl.
  - by rewrite Nat.add_0_r.
  - apply Forall_cons in Hds as [Hc Hds]. rewrite Hc, IH by done.
    replace (S n + length ds) with (n + S (length ds)) by lia.
    by destruct ds.
Qed.

Lemma py_int_digits max_str_digits ds :
  ds <> [] -> Forall (fun c => is_decimal_digit c = true) ds ->
  (length ds <= 640 \/ max_str_digits = 0 \/ length ds <= max_str_digits) ->
  py_int max_str_digits ds = Some (decimal_value ds).
Proof.
  intros Hne Hds Hlim. destruct ds as [|d ds]; [done|].
  pose proof (Forall_inv Hds) as Hd.
  destruct (digit_facts d Hd) as (_ & Hsp & _ & _ & _ & Hp & Hm & Hu & _).
  unfold py_int. cbn [skip_int_space]. rewrite Hsp.
  rewrite (proj2 (Ascii.eqb_neq d plus_sign)), (proj2 (Ascii.eqb_neq d minus_sign))
    by done.
  cbn [fst snd startswith_underscore].
  rewrite (proj2 (Ascii.eqb_neq d underscore)) by done.
  rewrite scan_digits_all by done.
  assert (Hl : (640 <? 0 + length (d :: ds)) && (0 <? max_str_digits)
               && (max_str_digits <? 0 + length (d :: ds)) = false).
  { destruct Hlim as [H|[->|H]].
    - rewrite (proj2 (Nat.ltb_ge _ _)) by lia. reflexivity.
    - by rewrite andb_false_r.
    - rewrite (proj2 (Nat.ltb_ge max_str_digits _)) by lia. by rewrite andb_false_r. }
  rewrite Hl. cbn [length Nat.eqb skip_int_space]. f_equal. unfold decimal_value. lia.
Qed.

Lemma py_int_minus_digits max_str_digits ds :
  ds <> [] -> Forall (fun c => is_decimal_digit c = true) ds ->
  (length ds <= 640 \/ max_str_digits = 0 \/ length ds <= max_str_digits) ->
  py_int max_str_digits (minus_sign :: ds) = Some (- decimal_value ds)%Z.
Proof.
  intros Hne Hds Hlim. destruct ds as [|d ds]; [done|].
  pose proof (Forall_inv Hds) as Hd.
  destruct (digit_facts d Hd) as (_ & _ & _ & _ & _ & _ & _ & Hu & _).
  unfold py_int. cbn [skip_int_space]. change (int_space minus_sign) with false.
  cbn iota beta. change (Ascii.eqb minus_sign plus_sign) with false.
  change (Ascii.eqb minus_sign minus_sign) with true.
  cbn [fst snd startswith_underscore].
  rewrite (proj2 (Ascii.eqb_neq d underscore)) by done.
  rewrite scan_digits_all by done.
  assert (Hl : (640 <? 0 + length (d :: ds)) && (0 <? max_str_digits)
               && (max_str_digits <? 0 + length (d :: ds)) = false).
  { destruct Hlim as [H|[->|H]].
    - rewrite (proj2 (Nat.ltb_ge _ _)) by lia. reflexivity.
    - by rewrite andb_false_r.
    - rewrite (proj2 (Nat.ltb_ge max_str_digits _)) by lia. by rewrite andb_false_r. }
  rewrite Hl. cbn [length Nat.eqb skip_int_space]. unfold decimal_value.
  f_equal; lia.
Qed.

(** ** What the parser keeps and what it drops *)

Lemma line_entry_blank_or_comment max_str_digits body :
  Forall (fun c => isspace c = true) body \/
  (exists ws rest, body = ws ++ hash :: rest /\ Forall (fun c => isspace c = true) ws) ->
  line_entry max_str_digits (body ++ [LF]) = None.
Proof.
  intros [Hblank|(ws & rest & -> & Hws)]; unfold line_entry.
  - rewrite strip_blank; [done|]. apply Forall_app. split; [done|]. by repeat constructor.
  - rewrite <- app_assoc. change ((hash :: rest) ++ [LF]) with (hash :: rest ++ [LF]).
    rewrite strip_comment by done. by rewrite orb_true_r.
Qed.

(** X17. A blank line and a line whose first non-blank character is [#] add
    nothing: the text parses as it does without that line. *)
Theorem parse_ignores_blank_and_comment_lines max_str_digits t body t2 :
  (LF ∉ body) -> (CR ∉ body) ->
  Forall (fun c => isspace c = true) body \/
  (exists ws rest, body = ws ++ hash :: rest /\ Forall (fun c => isspace c = true) ws) ->
  parse_basic_file max_str_digits (body ++ LF :: t2)
    = parse_basic_file max_str_digits t2 /\
  parse_basic_file max_str_digits ((t ++ [LF]) ++ body ++ LF :: t2)
    = parse_basic_file max_str_digits ((t ++ [LF]) ++ t2).
Proof.
  intros Hlf Hcr Hbody.
  assert (H1 : parse_basic_file max_str_digits (body ++ LF :: t2)
               = parse_basic_file max_str_digits t2).
  { rewrite parse_after_newline, (parse_basic_file_entries _ (body ++ [LF])).
    rewrite file_lines_one by done. simpl.
    by rewrite line_entry_blank_or_comment. }
  split; [done|].
  rewrite <- !app_assoc. cbn [app].
  by rewrite (parse_after_newline _ t), (parse_after_newline _ t t2), H1.
Qed.

Lemma parse_ignores_blank_and_comment_lines_witness :
  parse_basic_file 4300 (str "# demo" ++ LF :: str "10 END")
    = parse_basic_file 4300 (str "10 END") /\
  parse_basic_file 4300 (([] ++ [LF]) ++ str "# demo" ++ LF :: str "10 END")
    = parse_basic_file 4300 (([] ++ [LF]) ++ str "10 END").
Proof.
  apply parse_ignores_blank_and_comment_lines.
  - apply (bool_decide_unpack _). vm_compute. exact I.
  - apply (bool_decide_unpack _). vm_compute. exact I.
  - right. exists [], (str " demo"). split; [reflexivity | constructor].
Defined.

Lemma parsed_entry_shape max_str_digits text line_num line_text :
  (line_num, line_text) ∈ parse_basic_file max_str_digits text ->
  exists line word,
    line ∈ file_lines text /\
    strip line = word ++ space :: line_text /\
    (space ∉ word) /\ head word <> Some hash /\
    py_int max_str_digits word = Some line_num /\
    line_text <> [] /\
    (forall c, last line_text = Some c -> isspace c = false).
Proof.
  rewrite parse_basic_file_entries. intros Hin.
  apply list_elem_of_omap in Hin as (line & Hline & He).
  exists line, (before_space (strip line)).
  unfold line_entry in He.
  destruct (bool_decide (strip line = []) || startswith_hash (strip line)) eqn:Hb;
    [done|].
  apply orb_false_elim in Hb as [_ Hhash].
  destruct (before_space_spec (strip line)) as [Hsp [Hd|(t & Hs & Hd)]];
    rewrite Hd in He; [done|].
  destruct (py_int max_str_digits (before_space (strip line))) as [n|] eqn:Hint;
    [|done].
  simpl in He. injection He as -> ->.
  assert (Hlast : forall c, last (strip line) = Some c -> isspace c = false)
    by apply last_strip.
  rewrite Hs in Hlast.
  split; [done|]. split; [done|]. split; [done|]. split.
  - intros Hh. rewrite Hs in Hhash.
    destruct (before_space (strip line)) as [|c w]; [done|].
    simpl in Hh, Hhash. injection Hh as ->. done.
  - split; [done|]. split.
    + intros ->. specialize (Hlast space). rewrite last_snoc in Hlast.
      by specialize (Hlast eq_refl).
    + intros c Hc. apply Hlast. rewrite last_app. cbn [last].
      destruct line_text as [|a r]; [done|].
      change (last (space :: a :: r)) with (last (a :: r)). by rewrite Hc.
Qed.

(** X18. Every entry the parser returns comes from a line of the file which,
    stripped of the blanks around it, is a first word without a space,
    one space, and the statement text; the first word does not begin with
    [#] and [int] converts it to the line number; the statement text is
    not empty and does not end in a blank. *)
Theorem parsed_entry_origin max_str_digits text line_num line_text :
  (line_num, line_text) ∈ parse_basic_file max_str_digits text ->
  exists line word,
    line ∈ file_lines text /\
    strip line = word ++ space :: line_text /\
    (space ∉ word) /\ head word <> Some hash /\
    py_int max_str_digits word = Some line_num /\
    line_text <> [] /\
    (forall c, last line_text = Some c -> isspace c = false).
Proof. apply parsed_entry_shape. Qed.

Lemma parsed_entry_origin_witness :
  exists line word,
    line ∈ file_lines (str "10 END") /\
    strip line = word ++ space :: str "END" /\
    (space ∉ word) /\ head word <> Some hash /\
    py_int 4300 word = Some 10%Z /\
    str "END" <> [] /\
    (forall c, last (str "END") = Some c -> isspace c = false).
Proof.
  apply (parsed_entry_origin 4300 (str "10 END") 10%Z (str "END")).
  apply (bool_decide_unpack _). vm_compute. exact I.
Defined.

Lemma line_entry_source_line max_str_digits p :
  well_formed_line max_str_digits p ->
  file_lines (source_line p) = [source_line p] /\
  line_entry max_str_digits (source_line p) = Some (decimal_value p.1, p.2).
Proof.
  intros (Hne & Hds & Hlim & Htne & Hlast & Hlf & Hcr).
  destruct p as [ds text]. cbn [fst snd] in *.
  assert (Hdig : forall c, c ∈ ds -> is_decimal_digit c = true)
    by (by apply Forall_forall).
  assert (Hsp : space ∉ ds).
  { intros Hin. by destruct (digit_facts _ (Hdig _ Hin)) as (_ & _ & ? & _). }
  unfold source_line. cbn [fst snd].
  change (ds ++ space :: text ++ [LF]) with (ds ++ (space :: text) ++ [LF]).
  rewrite app_assoc. split.
  - apply file_lines_one.
    + intros Hin. apply elem_of_app in Hin as [Hin|Hin].
      * by destruct (digit_facts _ (Hdig _ Hin)) as (_ & _ & _ & ? & _).
      * apply elem_of_cons in Hin as [Hin|Hin]; [discriminate | done].
    + intros Hin. apply elem_of_app in Hin as [Hin|Hin].
      * by destruct (digit_facts _ (Hdig _ Hin)) as (_ & _ & _ & _ & ? & _).
      * apply elem_of_cons in Hin as [Hin|Hin]; [discriminate | done].
  - destruct ds as [|d ds]; [done|].
    destruct (digit_facts d (Hdig d ltac:(left))) as (Hd & _ & _ & _ & _ & _ & _ & _ & Hh).
    destruct (last text) as [b|] eqn:Hb; [| by apply last_None in Hb].
    unfold line_entry.
    rewrite (strip_core ((d :: ds) ++ space :: text) [LF] d b);
      [| done | done | | by apply Hlast | by repeat constructor].
    2:{ rewrite last_app. cbn [last]. destruct text as [|a r]; [done|].
        change (last (space :: a :: r)) with (last (a :: r)). by rewrite Hb. }
    rewrite bool_decide_eq_false_2 by done.
    cbn [app startswith_hash orb]. rewrite (proj2 (Ascii.eqb_neq d hash)) by done.
    change (d :: ds ++ space :: text) with ((d :: ds) ++ space :: text).
    rewrite before_space_app by done. rewrite drop_app_length.
    by rewrite py_int_digits.
Qed.

Lemma parse_source_line max_str_digits p rest :
  well_formed_line max_str_digits p ->
  parse_basic_file max_str_digits (source_line p ++ rest)
  = (decimal_value p.1, p.2) :: parse_basic_file max_str_digits rest.
Proof.
  intros Hp. destruct (line_entry_source_line _ _ Hp) as [Hfl He].
  unfold source_line in *.
  change (p.1 ++ space :: p.2 ++ [LF]) with (p.1 ++ (space :: p.2) ++ [LF]) in *.
  rewrite app_assoc in *. rewrite <- app_assoc. cbn [app].
  rewrite parse_after_newline, (parse_basic_file_entries _ (_ ++ [LF])), Hfl.
  simpl. by rewrite He.
Qed.

(** X19. A program written out line by line, each line as the digits of its
    number, a space, its statement and a newline, is read back as exactly
    these numbers and statements, in order. *)
Theorem parse_written_program max_str_digits prog :
  Forall (well_formed_line max_str_digits) prog ->
  parse_basic_file max_str_digits (concat (map source_line prog))
  = map (fun p => (decimal_value p.1, p.2)) prog.
Proof.
  induction 1 as [|p prog Hp _ IH]; [reflexivity|].
  cbn [map concat]. by rewrite parse_source_line, IH.
Qed.

Lemma parse_written_program_witness :
  parse_basic_file 4300 (concat (map source_line [(str "10", str "PRINT X");
                                                    (str "20", str "GOTO 10")]))
  = map (fun p => (decimal_value p.1, p.2)) [(str "10", str "PRINT X");
                                              (str "20", str "GOTO 10")].
Proof.
  apply parse_written_program.
  repeat constructor; try discriminate; try (simpl; lia);
    try (intros c [= <-]; reflexivity);
    apply (bool_decide_unpack _); vm_compute; exact I.
Defined.

(** X20. A minus sign before the digits is accepted: the entry then has a
    negative line number. *)
Theorem parse_negative_line_number max_str_digits ds line_text rest :
  well_formed_line max_str_digits (ds, line_text) ->
  parse_basic_file max_str_digits (minus_sign :: source_line (ds, line_text) ++ rest)
  = ((- decimal_value ds)%Z, line_text) :: parse_basic_file max_str_digits rest.
Proof.
  intros (Hne & Hds & Hlim & Htne & Hlast & Hlf & Hcr). cbn [fst snd] in *.
  assert (Hdig : forall c, c ∈ ds -> is_decimal_digit c = true)
    by (by apply Forall_forall).
  set (w := minus_sign :: ds).
  assert (Hw : forall c, c ∈ w -> c <> space /\ c <> LF /\ c <> CR).
  { intros c Hin. apply elem_of_cons in Hin as [->|Hin]; [by repeat split|].
    destruct (digit_facts _ (Hdig _ Hin)) as (_ & _ & ? & ? & ? & _). done. }
  unfold source_line. cbn [fst snd].
  replace (minus_sign :: (ds ++ space :: line_text ++ [LF]) ++ rest)
    with ((w ++ space :: line_text) ++ LF :: rest)
    by (subst w; cbn [app]; rewrite <- !app_assoc; cbn [app];
        by rewrite <- app_assoc).
  assert (He : line_entry max_str_digits ((w ++ space :: line_text) ++ [LF])
               = Some ((- decimal_value ds)%Z, line_text)).
  { unfold line_entry.
    destruct (last line_text) as [b|] eqn:Hb; [| by apply last_None in Hb].
    rewrite (strip_core (w ++ space :: line_text) [LF] minus_sign b);
      [| done | done | | by apply Hlast | by repeat constructor].
    2:{ rewrite last_app. cbn [last]. destruct line_text as [|a r]; [done|].
        change (last (space :: a :: r)) with (last (a :: r)). by rewrite Hb. }
    rewrite bool_decide_eq_false_2 by done.
    assert (Hh : startswith_hash (w ++ space :: line_text) = false) by reflexivity.
    rewrite Hh. cbn [orb].
    rewrite before_space_app by (intros Hin; by destruct (Hw _ Hin) as (? & ? & ?)).
    rewrite drop_app_length. subst w. by rewrite py_int_minus_digits. }
  rewrite parse_after_newline, (parse_basic_file_entries _ (_ ++ [LF])).
  rewrite file_lines_one.
  2:{ intros Hin. apply elem_of_app in Hin as [Hin|Hin];
        [by destruct (Hw _ Hin) as (? & ? & ?)|].
      apply elem_of_cons in Hin as [Hin|Hin]; [discriminate | done]. }
  2:{ intros Hin. apply elem_of_app in Hin as [Hin|Hin];
        [by destruct (Hw _ Hin) as (? & ? & ?)|].
      apply elem_of_cons in Hin as [Hin|Hin]; [discriminate | done]. }
  cbn [omap list_omap]. by rewrite He.
Qed.

Lemma parse_negative_line_number_witness :
  parse_basic_file 4300 (minus_sign :: source_line (str "5", str "END") ++ [])
  = ((- decimal_value (str "5"))%Z, str "END") :: parse_basic_file 4300 [].
Proof.
  apply parse_negative_line_number.
  repeat constructor; try discriminate; try (simpl; lia);
    try (intros c [= <-]; reflexivity);
    apply (bool_decide_unpack _); vm_compute; exact I.
Defined.

(** * The whole program *)

Lemma main_with_three_args max_str_digits argv input_text :
  length argv = 3 ->
  main max_str_digits argv input_text
  = main_block (parse_basic_file max_str_digits input_text).
Proof. intros H. unfold main. by rewrite bool_decide_eq_false_2 by lia. Qed.

Lemma main_not_three_args max_str_digits argv input_text :
  length argv <> 3 ->
  main max_str_digits argv input_text = Exit "Usage: tokenize.py input.bas output.prg" 1.
Proof. intros H. unfold main. by rewrite bool_decide_eq_true_2. Qed.

Lemma omap_nil_Forall {A B} (f : A -> option B) l :
  omap f l = [] <-> Forall (fun x => f x = None) l.
Proof.
  induction l as [|x l IH]; [split; [constructor | done]|].
  cbn [omap list_omap]. rewrite Forall_cons. destruct (f x); [|by rewrite <- IH; tauto].
  split; [done | by intros [? _]].
Qed.

(** X21. The program reports that it found no BASIC lines, and leaves with
    status 1, exactly when it is given two arguments and no line of the
    input file has the form first word, space, statement with a first
    word that [int] converts. *)
Theorem main_reports_no_lines max_str_digits argv input_text :
  main max_str_digits argv input_text = Exit "No BASIC lines found in input file" 1 <->
  length argv = 3 /\
  Forall (fun line => line_entry max_str_digits line = None) (file_lines input_text).
Proof.
  rewrite <- omap_nil_Forall, <- parse_basic_file_entries.
  destruct (decide (length argv = 3)) as [Hargs|Hargs].
  - rewrite main_with_three_args by done. unfold main_block.
    destruct (parse_basic_file max_str_digits input_text) as [|line rest];
      [by split|].
    destruct (create_prg (line :: rest) default_load_addr);
      split; (done || intros [_ ?]; done).
  - rewrite main_not_three_args by done. split; [done | by intros [? _]].
Qed.

(** X22. When the program writes an image, it was given two arguments, the
    file held at least one line that parses, and the image is the layout
    of the tokenized parsed lines at load address 0x0401: it has at least
    one record, every record has a statement of at least one byte, so the
    image has at least ten bytes, and it reads back as these lines. *)
Theorem main_writes_program max_str_digits argv input_text prg_data :
  main max_str_digits argv input_text = Written prg_data ->
  length argv = 3 /\
  exists tls,
    tokenized_as (parse_basic_file max_str_digits input_text) tls /\
    prg_data = prg_layout default_load_addr tls /\
    tls <> [] /\ Forall (fun tl => tl.2 <> []) tls /\
    10 <= length prg_data /\
    decode_records (length tls) prg_data default_load_addr 2 = Some tls.
Proof.
  intros H. destruct (decide (length argv = 3)) as [Hargs|Hargs];
    [| by rewrite main_not_three_args in H].
  split; [done|]. rewrite main_with_three_args in H by done. unfold main_block in H.
  destruct (parse_basic_file max_str_digits input_text) as [|line rest] eqn:Hparse;
    [done|].
  destruct (create_prg (line :: rest) default_load_addr) as [data|] eqn:Hc; [|done].
  injection H as ->.
  pose proof Hc as Hc'.
  apply create_prg_Some in Hc' as (_ & tls & Htls & -> & _).
  exists tls. split; [done|]. split; [done|].
  assert (Hbodies : Forall (fun tl => tl.2 <> []) tls).
  { apply Forall_forall. intros tl Htl.
    apply list_elem_of_lookup_1 in Htl as [k Hk].
    destruct (Forall2_lookup_r _ _ _ _ _ Htls Hk) as (ln & Hln & _ & Ht).
    intros Hnil. rewrite Hnil in Ht. apply tokenized_nil_iff in Ht.
    apply list_elem_of_lookup_2 in Hln. rewrite <- Hparse in Hln.
    destruct ln as [n t]. simpl in Ht. subst t.
    by destruct (parsed_entry_shape _ _ _ _ Hln) as (_ & _ & _ & _ & _ & _ & _ & ? & _). }
  assert (Hne : tls <> []) by (intros ->; by apply Forall2_nil_inv_r in Htls).
  split; [done|]. split; [done|]. split.
  - rewrite length_prg_layout. destruct tls as [|tl tls]; [done|].
    apply Forall_cons in Hbodies as [Hb _]. simpl.
    destruct tl.2; [done | simpl; lia].
  - rewrite (tokenized_as_length _ _ Htls).
    by apply (decode_image _ _ _ _ Htls Hc).
Qed.

Lemma main_writes_program_witness :
  length [str "tokenize.py"; str "in.bas"; str "out.prg"] = 3 /\
  exists tls,
    tokenized_as (parse_basic_file 4300 (str "10 END")) tls /\
    [1; 4; 7; 4; 10; 0; 128; 0; 0; 0]%Z = prg_layout default_load_addr tls /\
    tls <> [] /\ Forall (fun tl => tl.2 <> []) tls /\
    10 <= length [1; 4; 7; 4; 10; 0; 128; 0; 0; 0]%Z /\
    decode_records (length tls) [1; 4; 7; 4; 10; 0; 128; 0; 0; 0]%Z default_load_addr 2
      = Some tls.
Proof.
  apply (main_writes_program 4300 [str "tokenize.py"; str "in.bas"; str "out.prg"]
           (str "10 END")).
  vm_compute. reflexivity.
Defined.

(** X23. The program ends in an uncaught [struct.error], writing nothing,
    exactly when it is given two arguments, at least one line parses, and
    some parsed line number lies outside 0..65535 or the records do not
    fit below address 65535. *)
Theorem main_raises_iff max_str_digits argv input_text tls :
  tokenized_as (parse_basic_file max_str_digits input_text) tls ->
  (main max_str_digits argv input_text = Raised <->
   length argv = 3 /\ tls <> [] /\
   (Exists (fun line => ~ (0 <= line.1 <= 65535)%Z)
      (parse_basic_file max_str_digits input_text) \/
    (65535 < default_load_addr + Z.of_nat (records_size tls))%Z)).
Proof.
  intros Htls.
  pose proof (create_prg_is_Some _ default_load_addr _ Htls) as Hs.
  assert (Hnone : create_prg (parse_basic_file max_str_digits input_text)
                    default_load_addr = None <->
                  Exists (fun line => ~ (0 <= line.1 <= 65535)%Z)
                    (parse_basic_file max_str_digits input_text) \/
                  (65535 < default_load_addr + Z.of_nat (records_size tls))%Z).
  { rewrite eq_None_not_Some, Hs. split.
    - intros Hn.
      destruct (decide (Forall (fun line => (0 <= line.1 <= 65535)%Z)
                          (parse_basic_file max_str_digits input_text))) as [HF|HF].
      + right. apply Z.nle_gt. intros Hle. apply Hn.
        split; [unfold default_load_addr; lia | done].
      + left. apply not_Forall_Exists in HF; [exact HF | intros x; apply _].
    - intros [H|H] (_ & HF & Hend); [|lia].
      apply Exists_exists in H as (line & Hin & Hline).
      exact (Hline (proj1 (Forall_forall _ _) HF line Hin)). }
  destruct (decide (length argv = 3)) as [Hargs|Hargs].
  - rewrite main_with_three_args by done. unfold main_block.
    destruct (parse_basic_file max_str_digits input_text) as [|line rest] eqn:Hparse.
    + apply Forall2_nil_inv_l in Htls as ->. split; [done | by intros (_ & ? & _)].
    + assert (Hne : tls <> []) by (intros ->; by apply Forall2_nil_inv_r in Htls).
      destruct (create_prg (line :: rest) default_load_addr) as [data|] eqn:Hc.
      * split; [done|]. intros (_ & _ & Hbad). apply Hnone in Hbad. done.
      * split; [|done]. intros _. split; [done|]. split; [done|]. by apply Hnone.
  - rewrite main_not_three_args by done. split; [done | by intros [? _]].
Qed.

Lemma main_raises_iff_witness :
  main 4300 [str "tokenize.py"; str "in.bas"; str "out.prg"] (str "70000 END") = Raised.
Proof.
  refine (proj2 (main_raises_iff 4300 [str "tokenize.py"; str "in.bas"; str "out.prg"]
                   (str "70000 END") [(70000%Z, [128%Z])] _) _).
  - assert (Hp : parse_basic_file 4300 (str "70000 END") = [(70000%Z, str "END")])
      by (vm_compute; reflexivity).
    rewrite Hp. constructor; [split; [reflexivity | vm_compute; reflexivity] | constructor].
  - split; [reflexivity|]. split; [discriminate|]. left.
    apply (bool_decide_unpack _). vm_compute. exact I.
Defined.

(** * Case *)

Lemma same_upper_same_class :
  forallb (fun c =>
    forallb (fun c' =>
      if bool_decide (upper_char c = upper_char c') then same_class c c' else true)
      all_ascii) all_ascii = true.
Proof. vm_compute. reflexivity. Qed.

Lemma same_upper_class c c' :
  same_upper c c' ->
  isalnum c = isalnum c' /\ in_dollar_percent c = in_dollar_percent c' /\
  Ascii.eqb c dquote = Ascii.eqb c' dquote /\ Ascii.eqb c space = Ascii.eqb c' space.
Proof.
  intros Hu.
  pose proof same_upper_same_class as Hall. rewrite forallb_forall in Hall.
  specialize (Hall c (proj1 (list_elem_of_In _ _) (all_ascii_complete c))).
  rewrite forallb_forall in Hall.
  specialize (Hall c' (proj1 (list_elem_of_In _ _) (all_ascii_complete c'))).
  destruct (bool_decide (upper_char c = upper_char c')) eqn:Hb;
    [| by apply bool_decide_eq_false_1 in Hb].
  unfold same_class in Hall.
  repeat (apply andb_prop in Hall as [Hall ?]).
  repeat match goal with
         | H : bool_decide _ = true |- _ => apply bool_decide_eq_true_1 in H
         end.
  done.
Qed.

Lemma upper_same text text' : Forall2 same_upper text text' -> upper text = upper text'.
Proof.
  induction 1 as [|c c' t t' Hc _ IH]; [done|].
  change (upper (c :: t)) with (upper_char c ++ upper t).
  change (upper (c' :: t')) with (upper_char c' ++ upper t').
  by rewrite Hc, IH.
Qed.

Lemma accepts_same_upper text text' p name :
  Forall2 same_upper text text' -> accepts text p name = accepts text' p name.
Proof.
  intros H. unfold accepts, slice_matches, boundary_rejects.
  rewrite (upper_same (take (String.length name) (drop p text))
             (take (String.length name) (drop p text')))
    by (by apply Forall2_take, Forall2_drop).
  do 3 f_equal.
  destruct (text !! (p + String.length name)) as [c|] eqn:Hc.
  - destruct (Forall2_lookup_l _ _ _ _ _ H Hc) as (c' & -> & Hcc).
    by destruct (same_upper_class _ _ Hcc) as (-> & -> & _).
  - apply lookup_ge_None in Hc. rewrite (Forall2_length _ _ _ H) in Hc.
    by rewrite (proj2 (lookup_ge_None _ _) Hc).
Qed.

Lemma match_tokens_same_upper text text' p l :
  Forall2 same_upper text text' -> match_tokens text p l = match_tokens text' p l.
Proof.
  intros H. induction l as [|x l IH]; [done|].
  by rewrite !match_tokens_cons, (accepts_same_upper _ _ _ _ H), IH.
Qed.











(** * Keywords in their place *)

Lemma word_keyword_earlier_rejected : forallb earlier_rejected TOKENS = true.
Proof. vm_compute. reflexivity. Qed.

(** The spelling of a word keyword followed by a character that lets it
    be tokenized: the candidate loop answers with that keyword. *)
Lemma match_tokens_spelling k v c rest :
  (k, v) ∈ TOKENS -> first_isalpha k = true -> ok_after k c = true ->
  match_tokens (str k ++ c :: rest) 0 SORTED_TOKENS = Some (k, v).
Proof.
  intros Hin Hword Hok.
  pose proof (proj1 (Forall_forall _ _) table_in_sorted_tokens _ Hin) as Hsorted.
  pose proof (proj1 (Forall_forall _ _) table_spellings_plain _ Hin) as (Hup & _).
  cbn [fst] in Hup.
  pose proof (proj1 (forallb_forall _ _) word_keyword_earlier_rejected _
                (proj1 (list_elem_of_In _ _) Hin)) as Hk.
  unfold earlier_rejected in Hk. cbn [fst] in Hk. rewrite Hword in Hk.
  rewrite forallb_forall in Hk.
  apply list_elem_of_split in Hsorted as (l1 & l2 & Heq).
  apply match_tokens_Some. exists l1, l2. split; [done|]. split.
  - unfold accepts, slice_matches, boundary_rejects. cbn [fst].
    rewrite drop_0, take_app_length' by (by rewrite length_str).
    rewrite Hup, bool_decide_eq_true_2 by done.
    rewrite lookup_app_r by (rewrite length_str; lia).
    rewrite length_str, Nat.add_0_l, Nat.sub_diag. cbn [lookup list_lookup].
    apply andb_prop in Hok as [Hb _]. apply negb_true_iff in Hb.
    unfold is_boundary_char in Hb. by rewrite Hb, andb_false_r.
  - apply Forall_forall. intros y Hy.
    assert (Hy' : y ∈ SORTED_TOKENS) by (rewrite Heq; apply elem_of_app; by left).
    specialize (Hk y (proj1 (list_elem_of_In _ _) Hy')).
    rewrite bool_decide_eq_true_2 in Hk.
    + by apply (no_accept_before_sound _ (ok_after k)).
    + pose proof SORTED_TOKENS_sorted as Hs. rewrite Heq in Hs.
      eapply StronglySorted_app_1_elem_of; [done | done | left].
Qed.

Lemma same_upper_spelling r k :
  upper r = spelling k -> no_double_S (spelling k) = true ->
  upper (str k) = spelling k ->
  Forall2 same_upper r (str k).
Proof.
  intros Hr Hss Hk.
  pose proof (upper_pointwise _ _ Hr Hss) as H1.
  pose proof (upper_pointwise _ _ Hk Hss) as H2.
  revert H2. generalize (str k). clear Hr Hk Hss.
  induction H1 as [|c n r u Hc _ IH]; intros s H2.
  - apply Forall2_nil_inv_r in H2 as ->. constructor.
  - apply Forall2_cons_inv_r in H2 as (c' & s' & Hc' & H2 & ->).
    constructor; [unfold same_upper; congruence | by apply IH].
Qed.

(** A word keyword whose spelling stands at the scan position, in any
    case, and is followed by nothing or by a character that lets it be
    tokenized. *)
Lemma word_keyword_step k v text st :
  (k, v) ∈ TOKENS -> first_isalpha k = true ->
  in_quote st = false -> in_rem st = false ->
  slice_matches text (i st) k = true ->
  (forall c, text !! (i st + String.length k) = Some c -> ok_after k c = true) ->
  step text st = after_match text st k v.
Proof.
  intros Hin Hword Hq Hr Hs Hnext.
  pose proof (proj1 (Forall_forall _ _) table_in_sorted_tokens _ Hin) as Hsorted.
  pose proof (proj1 (Forall_forall _ _) spellings_nonempty _ Hsorted) as Hlen.
  pose proof (proj1 (Forall_forall _ _) table_spellings_plain _ Hin)
    as (Hup & Hss & Hnq & Hbare).
  cbn [fst] in Hlen, Hup, Hss, Hnq, Hbare.
  destruct (slice_first _ _ _ Hs Hlen) as (c0 & Hc0 & Hhead).
  assert (Hcq : c0 <> dquote) by (intros ->; apply Hnq; by rewrite <- Hhead).
  rewrite (step_matched _ _ c0 k v); [done.. |].
  (* the text from the scan position on, and the same with the spelling
     in capitals *)
  set (r := take (String.length k) (drop (i st) text)).
  set (rest := drop (String.length k) (drop (i st) text)).
  assert (Hr' : upper r = spelling k) by (by apply bool_decide_eq_true_1 in Hs).
  assert (Hsuf : drop (i st) text = r ++ rest) by (symmetry; apply take_drop).
  pose proof (same_upper_spelling r k Hr' Hss Hup) as Hsame.
  assert (Hlr : length r = String.length k)
    by (rewrite (Forall2_length _ _ _ Hsame); apply length_str).
  pose proof (match_tokens_shift (take (i st) text) (drop (i st) text) 0 SORTED_TOKENS)
    as Hshift.
  rewrite take_drop, length_take_le, Nat.add_0_r in Hshift
    by (apply lookup_lt_Some in Hc0; lia).
  rewrite Hshift, Hsuf.
  rewrite (match_tokens_same_upper (r ++ rest) (str k ++ rest))
    by (apply Forall2_app; [done | by apply Forall_Forall2_diag, Forall_true]).
  destruct rest as [|c rest'] eqn:Hrest.
  - by rewrite app_nil_r.
  - apply match_tokens_spelling; [done | done |]. apply Hnext.
    rewrite <- (Nat.add_0_r (i st + String.length k)), <- Nat.add_assoc.
    rewrite <- lookup_drop, Hsuf, lookup_app_r by lia.
    by rewrite Hlr, Nat.add_0_r, Nat.sub_diag.
Qed.

(** X7. A word keyword is tokenized wherever its spelling stands, in any
    case, outside strings and comments, when the line ends behind it or
    the next character is not alphanumeric, not [$] or [%] and not the
    [#] of [INPUT#] and [PRINT#]: the iteration appends its code and skips
    the spaces behind it. *)
Theorem word_keyword_tokenized k v text st :
  (k, v) ∈ TOKENS -> first_isalpha k = true ->
  in_quote st = false -> in_rem st = false ->
  slice_matches text (i st) k = true ->
  (forall c, text !! (i st + String.length k) = Some c -> ok_after k c = true) ->
  step text st = after_match text st k v.
Proof. apply word_keyword_step. Qed.

Lemma word_keyword_tokenized_witness :
  step (str "print x") init_state = after_match (str "print x") init_state "PRINT" 0x99%Z.
Proof.
  apply word_keyword_tokenized.
  - apply (bool_decide_unpack _). vm_compute. exact I.
  - reflexivity.
  - reflexivity.
  - reflexivity.
  - vm_compute. reflexivity.
  - intros c Hc. vm_compute in Hc. injection Hc as <-. reflexivity.
Defined.



(** * C6: quoted text and comment text are copied verbatim *)




(** * From the written program to the image *)

Lemma fold_digits_nonneg ds : forall v,
  (0 <= v)%Z -> Forall (fun c => is_decimal_digit c = true) ds ->
  (0 <= fold_left (fun v c => (v * 10 + (ord c - 48))%Z) ds v)%Z.
Proof.
  induction ds as [|c ds IH]; intros v Hv Hds; [done|].
  apply Forall_cons in Hds as [Hc Hds]. simpl. apply IH; [|done].
  unfold is_decimal_digit, in_range in Hc. apply andb_prop in Hc as [Hlo _].
  apply N.leb_le in Hlo. unfold ord, cp in *. lia.
Qed.

Lemma decimal_value_nonneg ds :
  Forall (fun c => is_decimal_digit c = true) ds -> (0 <= decimal_value ds)%Z.
Proof. apply fold_digits_nonneg. lia. Qed.

(** X24. Given two arguments and a file that holds a program written out
    line by line (digits, space, statement, newline), with line numbers
    up to 65535 and a size that fits below address 65535: when the
    statements are tokenized (no character makes [tokenize_line] fail),
    the program writes the image laid out from exactly these lines, which
    is the image [create_prg] builds from them. *)
Theorem main_converts_written_program max_str_digits argv prog tls :
  length argv = 3 -> prog <> [] ->
  Forall (well_formed_line max_str_digits) prog ->
  Forall (fun p => (decimal_value p.1 <= 65535)%Z) prog ->
  tokenized_as (map (fun p => (decimal_value p.1, p.2)) prog) tls ->
  (default_load_addr
   + Z.of_nat (source_size (map (fun p => (decimal_value p.1, p.2)) prog)) <= 65535)%Z ->
  main max_str_digits argv (concat (map source_line prog))
    = Written (prg_layout default_load_addr tls) /\
  create_prg (map (fun p => (decimal_value p.1, p.2)) prog) default_load_addr
    = Some (prg_layout default_load_addr tls).
Proof.
  intros Hargs Hne Hwf Hnums Htls Hsize.
  assert (Hparse : parse_basic_file max_str_digits (concat (map source_line prog))
                   = map (fun p => (decimal_value p.1, p.2)) prog).
  { clear Hne Hnums Htls Hsize. induction Hwf as [|p prog Hp _ IH]; [reflexivity|].
    cbn [map concat]. by rewrite parse_source_line, IH. }
  set (lines := map (fun p => (decimal_value p.1, p.2)) prog) in *.
  assert (Hdata : create_prg lines default_load_addr
                  = Some (prg_layout default_load_addr tls)).
  { apply create_prg_succeeds; [done | unfold default_load_addr; lia | |].
    - pose proof (records_size_bounds _ _ Htls). rewrite length_prg_layout. lia.
    - subst lines. apply Forall_fmap, Forall_forall. intros p Hp. cbn [fst].
      split; [| exact (proj1 (Forall_forall _ _) Hnums p Hp)].
      apply decimal_value_nonneg.
      by destruct (proj1 (Forall_forall _ _) Hwf p Hp) as (_ & ? & _). }
  split; [|done].
  rewrite main_with_three_args, Hparse by done. unfold main_block.
  destruct lines as [|line rest] eqn:Hlines.
  - subst lines. by destruct prog.
  - by rewrite Hdata.
Qed.

Lemma main_converts_written_program_witness :
  main 4300 [str "tokenize.py"; str "in.bas"; str "out.prg"]
    (concat (map source_line [(str "10", str "REM HI"); (str "20", str "END")]))
    = Written (prg_layout default_load_addr
                 [(10%Z, [0x8F; 0x48; 0x49]%Z); (20%Z, [0x80%Z])]) /\
  create_prg (map (fun p => (decimal_value p.1, p.2))
                [(str "10", str "REM HI"); (str "20", str "END")]) default_load_addr
    = Some (prg_layout default_load_addr
              [(10%Z, [0x8F; 0x48; 0x49]%Z); (20%Z, [0x80%Z])]).
Proof.
  apply main_converts_written_program.
  - reflexivity.
  - discriminate.
  - repeat constructor; try discriminate; try (simpl; lia);
      try (intros c [= <-]; reflexivity);
      apply (bool_decide_unpack _); vm_compute; exact I.
  - repeat constructor; vm_compute; discriminate.
  - constructor; [split; [reflexivity | vm_compute; reflexivity] |].
    constructor; [split; [reflexivity | vm_compute; reflexivity] | constructor].
  - vm_compute. discriminate.
Defined.

(** * C10: tokenization ends and never lengthens a line *)

(** [bytearray.append] takes the values of [range(256)] and no others. *)
Lemma append_in_range res b :
  (0 <= b < 256)%Z -> Unicode.append res b = Unicode.Returns (res ++ [b]).
Proof. intros H. unfold Unicode.append. by rewrite bool_decide_eq_true_2. Qed.

Lemma append_out_of_range res b :
  ~ (0 <= b < 256)%Z -> Unicode.append res b = Unicode.ValueError.
Proof. intros H. unfold Unicode.append. by rewrite bool_decide_eq_false_2. Qed.

Lemma unicode_ord_Latin1 a : (0 <= Unicode.ord (Unicode.Latin1 a) < 256)%Z.
Proof. pose proof (ord_range a). simpl. lia. Qed.

Lemma unicode_ord_nonneg c : (0 <= Unicode.ord c)%Z.
Proof. destruct c as [a|n u b]; [pose proof (ord_range a) |]; simpl; lia. Qed.

Lemma unicode_match_tokens_elem text p l x :
  Unicode.match_tokens text p l = Some x -> x ∈ l.
Proof.
  induction l as [|[n v] l IH]; [done|]. simpl.
  destruct (Unicode.slice_matches text p n); [|right; auto].
  destruct (Unicode.boundary_rejects text p n); [right; auto|].
  intros [= <-]. left.
Qed.

Lemma sorted_token_code x :
  x ∈ SORTED_TOKENS -> (0 <= x.2 < 256)%Z /\ 0 < String.length x.1.
Proof.
  intros Hin. split.
  - pose proof (proj1 (Forall_forall _ _) sorted_tokens_in_table _ Hin) as Ht.
    pose proof (proj1 (Forall_forall _ _) table_codes_range _ Ht) as Hr.
    simpl in Hr. lia.
  - exact (proj1 (Forall_forall _ _) spellings_nonempty _ Hin).
Qed.

(** Copying a character appends its code, or raises when the code is
    above 255. *)
Lemma copy_char_cases c st :
  ((0 <= Unicode.ord c < 256)%Z /\
   Unicode.copy_char c st = Unicode.Returns (
     {| i := i st + 1; in_quote := in_quote st; in_rem := in_rem st;
        result := result st ++ [Unicode.ord c] |})) \/
  ((255 < Unicode.ord c)%Z /\ Unicode.copy_char c st = Unicode.ValueError).
Proof.
  unfold Unicode.copy_char.
  destruct (decide (0 <= Unicode.ord c < 256)%Z) as [H|H].
  - left. by rewrite append_in_range.
  - right. rewrite append_out_of_range by done. pose proof (unicode_ord_nonneg c).
    split; [lia | done].
Qed.

(** An iteration moves [i] forward and appends one byte, or raises at a
    character above U+00FF. *)
Lemma unicode_step_progress line_text st :
  i st < length line_text ->
  match Unicode.step line_text st with
  | Unicode.Returns st' => i st < i st' /\ exists b, result st' = result st ++ [b]
  | Unicode.ValueError =>
      exists c, line_text !! i st = Some c /\ (255 < Unicode.ord c)%Z
  end.
Proof.
  intros Hlt. destruct (lookup_lt_is_Some_2 _ _ Hlt) as [char Hc].
  unfold Unicode.step. rewrite Hc.
  destruct (Unicode.is_char dquote char) eqn:Hq.
  { destruct char as [a|]; [|done]. rewrite append_in_range by apply unicode_ord_Latin1.
    cbn [i result]. split; [lia | eauto]. }
  assert (Hcopy : match Unicode.copy_char char st with
                  | Unicode.Returns st' => i st < i st' /\ exists b, result st' = result st ++ [b]
                  | Unicode.ValueError =>
                      exists c, Some char = Some c /\ (255 < Unicode.ord c)%Z
                  end).
  { destruct (copy_char_cases char st) as [[_ ->]|[H ->]];
      [cbn [i result]; split; [lia | eauto] | eauto]. }
  destruct (in_quote st || in_rem st); [done|].
  destruct (Unicode.match_tokens line_text (i st) SORTED_TOKENS) as [[n v]|] eqn:Hm; [|done].
  apply unicode_match_tokens_elem, sorted_token_code in Hm as [Hv Hn]. simpl in Hv, Hn.
  rewrite append_in_range by done. cbn [i result]. split; [| eauto].
  unfold Unicode.skip_spaces. lia.
Qed.

Lemma unicode_loop_done fuel line_text st :
  length line_text <= i st -> Unicode.loop fuel line_text st = Some (Unicode.Returns st).
Proof.
  intros H. destruct fuel; cbn [Unicode.loop]; by rewrite bool_decide_eq_false_2 by lia.
Qed.

Lemma unicode_loop_step fuel line_text st :
  i st < length line_text ->
  Unicode.loop (S fuel) line_text st =
  match Unicode.step line_text st with
  | Unicode.Returns st' => Unicode.loop fuel line_text st'
  | Unicode.ValueError => Some Unicode.ValueError
  end.
Proof. intros H. cbn [Unicode.loop]. by rewrite bool_decide_eq_true_2 by lia. Qed.

(** [len(line_text) - i] iterations always suffice. *)
Lemma unicode_loop_enough line_text fuel : forall st,
  length line_text - i st <= fuel ->
  length (result st) <= i st -> length (result st) <= length line_text ->
  exists r, Unicode.loop fuel line_text st = Some r /\
    match r with
    | Unicode.Returns fin =>
        length line_text <= i fin /\ length (result fin) <= length line_text
    | Unicode.ValueError => Exists (fun c => (255 < Unicode.ord c)%Z) line_text
    end.
Proof.
  induction fuel as [|fuel IH]; intros st Hf Hres Hlen.
  - exists (Unicode.Returns st). split; [apply unicode_loop_done; lia | lia].
  - destruct (decide (i st < length line_text)) as [Hlt|Hge];
      [| exists (Unicode.Returns st); split; [apply unicode_loop_done; lia | lia]].
    rewrite unicode_loop_step by done.
    pose proof (unicode_step_progress line_text st Hlt) as Hp.
    destruct (Unicode.step line_text st) as [st'|].
    + destruct Hp as [Hi [b Hb]]. apply IH; rewrite ?Hb, ?length_app; simpl; lia.
    + destruct Hp as (c & Hc & Hord). exists Unicode.ValueError. split; [done|].
      apply Exists_exists. exists c. split; [by eapply list_elem_of_lookup_2 | done].
Qed.

(** On a text of characters up to U+00FF the scan is the one modelled
    over these characters, and it never raises. *)
Lemma upper_Latin1 s : Unicode.upper (Unicode.Latin1 <$> s) = upper s.
Proof.
  unfold Unicode.upper, upper. induction s as [|c s IH]; [done|].
  cbn [fmap list_fmap flat_map]. by rewrite <- IH.
Qed.

Lemma slice_matches_Latin1 text p name :
  Unicode.slice_matches (Unicode.Latin1 <$> text) p name = slice_matches text p name.
Proof.
  unfold Unicode.slice_matches, slice_matches.
  by rewrite <- fmap_drop, <- fmap_take, upper_Latin1.
Qed.

Lemma boundary_rejects_Latin1 text p name :
  Unicode.boundary_rejects (Unicode.Latin1 <$> text) p name = boundary_rejects text p name.
Proof.
  unfold Unicode.boundary_rejects, boundary_rejects. rewrite list_lookup_fmap.
  by destruct (text !! (p + String.length name)).
Qed.

Lemma match_tokens_Latin1 text p l :
  Unicode.match_tokens (Unicode.Latin1 <$> text) p l = match_tokens text p l.
Proof.
  induction l as [|[n v] l IH]; [done|]. simpl.
  by rewrite slice_matches_Latin1, boundary_rejects_Latin1, IH.
Qed.

Lemma count_spaces_Latin1 l :
  Unicode.count_spaces (Unicode.Latin1 <$> l) = count_spaces l.
Proof.
  induction l as [|c l IH]; [done|].
  cbn [fmap list_fmap Unicode.count_spaces count_spaces Unicode.is_char].
  by rewrite <- IH.
Qed.

Lemma step_Latin1 text st :
  Unicode.step (Unicode.Latin1 <$> text) st = Unicode.Returns (step text st).
Proof.
  unfold Unicode.step, step. rewrite list_lookup_fmap.
  destruct (text !! i st) as [char|]; [|done].
  cbn [fmap option_fmap option_map Unicode.is_char].
  assert (Hcopy : Unicode.copy_char (Unicode.Latin1 char) st
                  = Unicode.Returns (copy_char char st)).
  { unfold Unicode.copy_char. by rewrite append_in_range by apply unicode_ord_Latin1. }
  destruct (Ascii.eqb char dquote).
  { by rewrite append_in_range by apply (unicode_ord_Latin1 char). }
  destruct (in_quote st || in_rem st); [done|].
  rewrite match_tokens_Latin1.
  destruct (match_tokens text (i st) SORTED_TOKENS) as [[n v]|] eqn:Hm; [|done].
  apply match_tokens_elem in Hm as [Hin _]. apply sorted_token_code in Hin as [Hv _].
  rewrite append_in_range by done. unfold Unicode.skip_spaces, skip_spaces.
  by rewrite <- fmap_drop, count_spaces_Latin1.
Qed.

Lemma loop_Latin1 text fuel : forall st,
  Unicode.loop fuel (Unicode.Latin1 <$> text) st = Unicode.Returns <$> loop fuel text st.
Proof.
  induction fuel as [|fuel IH]; intros st;
    cbn [Unicode.loop loop]; rewrite length_fmap; case_bool_decide; try done.
  by rewrite step_Latin1, IH.
Qed.

Lemma tokenize_line_Latin1 text :
  Unicode.tokenize_line (Unicode.Latin1 <$> text) = Unicode.Returns <$> tokenize_line text.
Proof.
  unfold Unicode.tokenize_line, tokenize_line. rewrite length_fmap, loop_Latin1.
  by destruct (loop (length text) text init_state).
Qed.

(** The text [Aπ]: the letter A is copied, then [π], which no keyword
    starts with, is to be copied and [bytearray.append(960)] raises
    [ValueError]; no byte sequence is returned. *)
Lemma tokenize_line_raises_counterexample :
  Unicode.tokenize_line [Unicode.Latin1 "A"; Unicode.small_pi] = Some Unicode.ValueError /\
  ~ (exists out,
       Unicode.tokenize_line [Unicode.Latin1 "A"; Unicode.small_pi]
         = Some (Unicode.Returns out) /\
       length out <= length [Unicode.Latin1 "A"; Unicode.small_pi]).
Proof.
  assert (H : Unicode.tokenize_line [Unicode.Latin1 "A"; Unicode.small_pi]
              = Some Unicode.ValueError) by (vm_compute; reflexivity).
  split; [done|]. rewrite H. by intros (out & [=] & _).
Qed.

(** C10. Every iteration of the scanning loop moves the scan position
    forward, and it either appends exactly one byte or raises
    [ValueError], which it does only when the character at the scan
    position has a code point above 255.  So for every text
    [tokenize_line] comes to an end within [len(line_text)] iterations:
    it returns a byte sequence at most as long as the text, or it raises
    [ValueError] and the text holds a character above U+00FF.  For a
    text whose characters all lie in U+0000..U+00FF it returns, the
    bytes are those of [tokenize_line] over these characters, and they
    are at most as many as the characters of the text. *)
Theorem tokenize_line_terminates_and_never_lengthens :
  (forall line_text st, i st < length line_text ->
     match Unicode.step line_text st with
     | Unicode.Returns st' => i st < i st' /\ exists b, result st' = result st ++ [b]
     | Unicode.ValueError =>
         exists c, line_text !! i st = Some c /\ (255 < Unicode.ord c)%Z
     end) /\
  (forall line_text, exists r,
     Unicode.tokenize_line line_text = Some r /\
     match r with
     | Unicode.Returns out => length out <= length line_text
     | Unicode.ValueError => Exists (fun c => (255 < Unicode.ord c)%Z) line_text
     end) /\
  (forall line_text,
     Forall (fun c => (Unicode.ord c <= 255)%Z) line_text ->
     exists out, Unicode.tokenize_line line_text = Some (Unicode.Returns out) /\
                 length out <= length line_text) /\
  (forall line_text : list ascii, exists out,
     Unicode.tokenize_line (Unicode.Latin1 <$> line_text) = Some (Unicode.Returns out) /\
     tokenize_line line_text = Some out /\
     length out <= length line_text).
Proof.
  assert (Hends : forall line_text, exists r,
            Unicode.tokenize_line line_text = Some r /\
            match r with
            | Unicode.Returns out => length out <= length line_text
            | Unicode.ValueError => Exists (fun c => (255 < Unicode.ord c)%Z) line_text
            end).
  { intros line_text.
    destruct (unicode_loop_enough line_text (length line_text) init_state)
      as (r & Hl & Hr); [simpl; lia..|].
    unfold Unicode.tokenize_line. rewrite Hl. destruct r as [fin|].
    + exists (Unicode.Returns (result fin)). split; [done | tauto].
    + by exists Unicode.ValueError. }
  split; [exact unicode_step_progress|]. split; [exact Hends|]. split.
  - intros line_text Hall. destruct (Hends line_text) as ([out|] & Ht & Hr).
    + by exists out.
    + apply Exists_exists in Hr as (c & Hc & Hord).
      pose proof (proj1 (Forall_forall _ _) Hall c Hc) as Hle. simpl in Hle. lia.
  - intros line_text. destruct (tokenize_line_total line_text) as (fin & _ & Ht).
    exists (result fin). rewrite tokenize_line_Latin1, Ht. split; [done|]. split; [done|].
    by apply tokenized_length.
Qed.
